(** * mnemonic-to-brc100: address discovery and sweep pipeline

    A shallow embedding of [src/App.tsx]: the request queue
    ([queuedFetch] / [processQueue]), the gap-limited address scanner
    ([generateAddresses]), the registry merge performed in [setResults],
    and the sweep protocol ([createIngestTx]).

    Conventions of the embedding.
    - A JavaScript string is the list of its UTF-16 code units.
    - A JavaScript number that the program only ever uses as an integer
      (indices, counters, satoshi amounts, output positions) is a [Z],
      with exact [+] and decimal printing.  The runtime computes in
      binary64 and prints the shortest digits that identify a number;
      the two agree as long as every number involved lies between
      [- 2^53] and [2^53] ([exactInteger], [exactSum]).  A theorem whose
      statement depends on index arithmetic, on a printed number or on a
      sum of values has that range among its hypotheses.  The two
      divisions of the fee check are carried out on exact rationals
      extended with the IEEE special values.
    - A plain object used as a map from transaction ids is the list of
      its own properties in insertion order, which is what the runtime
      does for keys that are transaction ids ([isTxid]).  A theorem whose
      statement depends on it has the shape of the keys among its
      hypotheses.
    - Calls that leave the program (the SDK's key derivation, the data
      provider, the wallet) are the methods of a type class; a call that
      throws is a method answering [None].
    - An exception is a value of type [Error]; code inside [try] runs in a
      state-and-error monad.
    - [await] points split asynchronous code into synchronous segments;
      the request queue is a transition system over these segments with
      an explicit clock. *)

From Stdlib Require Import String Ascii DecimalString DecimalPos DecimalZ.
From Stdlib Require Import List ZArith NArith QArith Bool Lia.
From Stdlib Require PrimFloat Uint63 Sorted.
Import ListNotations.

Local Open Scope Z_scope.

(** ** JavaScript strings *)

Module JsString.

Definition t := list N.

Definition eq_dec : forall a b : t, {a = b} + {a <> b} :=
  list_eq_dec N.eq_dec.

(** [a === b] on strings. *)
Definition eqb (a b : t) : bool := if eq_dec a b then true else false.

(** A source literal made of ASCII characters only. *)
Fixpoint lit (s : string) : t :=
  match s with
  | EmptyString => []
  | String c s' => N_of_ascii c :: lit s'
  end.

(** [String(n)] / [`${n}`] for an integer [n] (decimal, with a leading
    minus sign when negative).  This is what the runtime prints for an
    integer between [- 2^53] and [2^53]; a larger number is printed from
    its shortest round-trip digits, and from 1e21 on with an exponent,
    which is not modelled. *)
Definition ofNumber (n : Z) : t := lit (NilZero.string_of_int (Z.to_int n)).

(** [s.replace(/c/g, by)] for a single code unit [c]. *)
Definition replaceAll (c : N) (by_ : t) (s : t) : t :=
  flat_map (fun x => if N.eqb x c then by_ else [x]) s.

End JsString.

Definition jsstring : Type := JsString.t.

(** U+2019 RIGHT SINGLE QUOTATION MARK, the character of the regular
    expression in [generateAddresses] and [createIngestTx]. *)
Definition RIGHT_SINGLE_QUOTE : N := 8217.
(** U+0027 APOSTROPHE, the replacement string ["'"]. *)
Definition APOSTROPHE : N := 39.

(** [`${prefix}/${index}`.replace(/’/g, "'")] *)
Definition fullPath (prefix : jsstring) (index : Z) : jsstring :=
  JsString.replaceAll RIGHT_SINGLE_QUOTE [APOSTROPHE]
    (prefix ++ JsString.lit "/" ++ JsString.ofNumber index).

(** ** Data model *)

Record wocUTXO := {
  height : Z;
  tx_pos : Z;
  tx_hash : jsstring;
  value : Z;
  isSpentInMempoolTx : bool
}.

Record utxoResponse := {
  resp_address : jsstring;
  error : jsstring;
  result : list wocUTXO;
  script : jsstring
}.

Record Result := {
  index : Z;
  address : jsstring;
  balance : Z;
  count : Z;
  utxos : utxoResponse;
  pathPrefix : jsstring
}.

(** ** Registry merge, the updater passed to [setResults] *)

(** [set.add(x)] on a JavaScript [Set]: insertion order, no duplicates. *)
Definition set_add (s : list jsstring) (x : jsstring) : list jsstring :=
  if existsb (JsString.eqb x) s then s else s ++ [x].

(** [arr.find(r => r.address === a)] *)
Definition findByAddress (a : jsstring) (arr : list Result) : option Result :=
  find (fun r => JsString.eqb (address r) a) arr.

(** [a || b] where both are either an object or [undefined]. *)
Definition orElse {A} (a b : option A) : option A :=
  match a with Some _ => a | None => b end.

(** [xs.filter(r => r !== undefined)] *)
Fixpoint filterDefined {A} (xs : list (option A)) : list A :=
  match xs with
  | [] => []
  | Some x :: xs' => x :: filterDefined xs'
  | None :: xs' => filterDefined xs'
  end.

Definition mergeResults (r usedResults : list Result) : list Result :=
  let set := fold_left set_add (map address r) [] in
  let set := fold_left set_add (map address usedResults) set in
  let uniqueResults := set in
  let updatedResults :=
    map (fun a => orElse (findByAddress a r) (findByAddress a usedResults))
        uniqueResults in
  filterDefined updatedResults.

(** ** Exceptions *)

Inductive Error :=
| JsError (message : jsstring)      (* [throw new Error(message)] in App.tsx *)
| TypeError (message : jsstring)    (* raised by the runtime *)
| Thrown (source : jsstring).       (* raised inside a collaborator *)

(** ** Collaborators *)

(** The parts of [@bsv/sdk] the program calls on keys. *)
Class Sdk := {
  Seed : Type;
  PrivateKey : Type;
  (** [new Mnemonic(m).toSeed(pin)], also written
      [new Mnemonic().fromString(m).toSeed(pin)]; [None] when it throws. *)
  toSeed : jsstring -> jsstring -> option Seed;
  (** Does [HD.fromSeed(seed)] return a master key?  [false] when it
      throws. *)
  fromSeed : Seed -> bool;
  (** [masterKey.derive(path).privKey] for the master key of [seed];
      [None] when it throws. *)
  derive : Seed -> jsstring -> option PrivateKey;
  (** [privKey.toPublicKey().toAddress().toString()] *)
  toAddress : PrivateKey -> jsstring
}.

(** The WhatsOnChain endpoints, each reached through [queuedFetch] and
    decoded with [.json()] or [.text()]; [None] when either step throws. *)
Class Provider := {
  (** [/address/${address}/history]; a body that is not an array has no
      [length] and is read as the empty list. *)
  addressHistory : jsstring -> option (list jsstring);
  (** [/address/${address}/unspent/all]; [None] also covers a body
      without a [result] array, on which [utxos.result.length] throws. *)
  unspentAll : jsstring -> option utxoResponse;
  (** [/tx/${txid}/beef] *)
  txBeef : jsstring -> option jsstring
}.

(** ** React state of [App] *)

Module App.

Record State := {
  mnemonic : jsstring;
  pin : jsstring;
  pathPrefix : jsstring;
  results : list Result;
  txHex : jsstring;
  isLoading : jsstring;
  consecutiveUnusedGap : Z;
  startOffset : Z
}.

Definition setResults (f : list Result -> list Result) (s : State) : State :=
  {| mnemonic := mnemonic s; pin := pin s; pathPrefix := pathPrefix s;
     results := f (results s); txHex := txHex s; isLoading := isLoading s;
     consecutiveUnusedGap := consecutiveUnusedGap s;
     startOffset := startOffset s |}.

Definition setTxHex (h : jsstring) (s : State) : State :=
  {| mnemonic := mnemonic s; pin := pin s; pathPrefix := pathPrefix s;
     results := results s; txHex := h; isLoading := isLoading s;
     consecutiveUnusedGap := consecutiveUnusedGap s;
     startOffset := startOffset s |}.

Definition setIsLoading (m : jsstring) (s : State) : State :=
  {| mnemonic := mnemonic s; pin := pin s; pathPrefix := pathPrefix s;
     results := results s; txHex := txHex s; isLoading := m;
     consecutiveUnusedGap := consecutiveUnusedGap s;
     startOffset := startOffset s |}.


End App.

(** ** Address scanner: [generateAddresses] *)

(** The three locals of the [while] loop. *)
Record ScanState := {
  sc_index : Z;
  sc_consecutiveUnused : Z;
  sc_usedResults : list Result
}.

(** [utxos.result.reduce((sum, utxo) => sum + utxo.value, 0)], for
    amounts whose running sum stays exact in binary64 ([exactSum]). *)
Definition sumValues (us : list wocUTXO) : Z :=
  fold_left (fun sum utxo => sum + value utxo) us 0.

(** The body of the [try] block of one loop iteration.  Every statement
    that can throw comes before the first assignment to a local, so an
    exception leaves the locals as they were when the iteration began.
    [index++] and [consecutiveUnused++] are exact here; in the runtime
    they are exact up to [2^53], where a number stops advancing. *)
Definition scanBody `{Sdk} `{Provider} (seed : Seed) (prefix : jsstring)
    (st : ScanState) : Error + ScanState :=
  let index := sc_index st in
  let fullPath := fullPath prefix index in
  match derive seed fullPath with
  | None => inl (Thrown (JsString.lit "derive"))
  | Some privKey =>
    let address := toAddress privKey in
    match addressHistory address with
    | None => inl (Thrown (JsString.lit "history"))
    | Some history =>
      let isUsed := (0 <? Z.of_nat (length history)) in
      if isUsed then
        match unspentAll address with
        | None => inl (Thrown (JsString.lit "unspent"))
        | Some utxos =>
          let usedResults :=
            if 0 <? Z.of_nat (length (result utxos)) then
              let balance := sumValues (result utxos) in
              sc_usedResults st ++
                [{| index := index; address := address; balance := balance;
                    count := Z.of_nat (length (result utxos));
                    utxos := utxos; pathPrefix := prefix |}]
            else sc_usedResults st in
          inr {| sc_index := index + 1; sc_consecutiveUnused := 0;
                 sc_usedResults := usedResults |}
        end
      else
        inr {| sc_index := index + 1;
               sc_consecutiveUnused := sc_consecutiveUnused st + 1;
               sc_usedResults := sc_usedResults st |}
    end
  end.

(** How the [while] loop was left. *)
Inductive LoopExit :=
| GapReached                (* the condition became false *)
| Broke (e : Error).        (* [catch (error) { ...; break }] *)

(** [while (consecutiveUnused < consecutiveUnusedGap) { try ... catch ... }].
    The loop need not terminate (every address may be in use), so the
    embedding counts iterations; [None] means the budget ran out. *)
Fixpoint scanLoop `{Sdk} `{Provider} (fuel : nat) (seed : Seed)
    (prefix : jsstring) (gap : Z) (st : ScanState)
    : option (ScanState * LoopExit) :=
  match fuel with
  | O => None
  | S fuel' =>
    if sc_consecutiveUnused st <? gap then
      match scanBody seed prefix st with
      | inl e => Some (st, Broke e)
      | inr st' => scanLoop fuel' seed prefix gap st'
      end
    else Some (st, GapReached)
  end.

(** [generateAddresses].  The progress messages written with
    [setIsLoading] inside the loop are overwritten by the final
    [setIsLoading('')] and are not kept.  [HD.fromSeed(seed)] stands
    outside every [try]: when it throws, the call ends there, with the
    state as the statements before it left it. *)
Definition generateAddresses `{Sdk} `{Provider} (fuel : nat) (s : App.State)
    : option App.State :=
  let s := App.setIsLoading (JsString.lit "Generating seed...") s in
  match toSeed (App.mnemonic s) (App.pin s) with
  | None => Some s                       (* alert(...); return *)
  | Some seed =>
    if fromSeed seed then
      let s :=
        App.setIsLoading (JsString.lit "Searching for used addresses...") s in
      let st0 := {| sc_index := App.startOffset s; sc_consecutiveUnused := 0;
                    sc_usedResults := [] |} in
      match scanLoop fuel seed (App.pathPrefix s)
                     (App.consecutiveUnusedGap s) st0 with
      | None => None
      | Some (st, _) =>
        let s := App.setResults
                   (fun r => mergeResults r (sc_usedResults st)) s in
        let s := App.setTxHex [] s in
        Some (App.setIsLoading [] s)
      end
    else Some s                          (* the exception leaves the call *)
  end.

(** ** JavaScript numbers of the fee check *)

Module JsNumber.

(** A number as an exact rational or one of the IEEE special values.
    Rounding to binary64 is not modelled; signed zeros are identified. *)
Inductive t :=
| Finite (q : Q)
| PosInfinity
| NegInfinity
| NaN.

Definition ofZ (z : Z) : t := Finite (inject_Z z).

Definition ofN (n : N) : t := Finite (inject_Z (Z.of_N n)).

Definition signOf (q : Q) : comparison := (q ?= 0)%Q.

(** [a / b] *)
Definition div (a b : t) : t :=
  match a, b with
  | NaN, _ | _, NaN => NaN
  | Finite x, Finite y =>
    match signOf y with
    | Eq => match signOf x with
            | Eq => NaN | Gt => PosInfinity | Lt => NegInfinity
            end
    | _ => Finite (x / y)
    end
  | Finite _, _ => Finite 0
  | PosInfinity, Finite y =>
    match signOf y with Lt => NegInfinity | _ => PosInfinity end
  | NegInfinity, Finite y =>
    match signOf y with Lt => PosInfinity | _ => NegInfinity end
  | _, _ => NaN
  end.

(** [a > b] *)
Definition gtb (a b : t) : bool :=
  match a, b with
  | NaN, _ | _, NaN => false
  | Finite x, Finite y => match (x ?= y)%Q with Gt => true | _ => false end
  | PosInfinity, PosInfinity => false
  | PosInfinity, _ => true
  | _, NegInfinity => match a with NegInfinity => false | _ => true end
  | _, _ => false
  end.

End JsNumber.

(** ** Transactions as the sweep sees them *)

Record TransactionInput := {
  (** [input.sourceTransaction?.id('hex')]; [None] when the input carries
      no source transaction. *)
  sourceTransaction : option jsstring;
  sourceOutputIndex : Z;
  (** [sourceTransaction.outputs[sourceOutputIndex].satoshis] *)
  sourceSatoshis : Z
}.

Record Transaction := {
  inputs : list TransactionInput;
  (** the [satoshis] of each output *)
  outputs : list Z;
  (** [tx.toBinary().length] *)
  binaryLength : N
}.

(** Modelled from the spec: [Transaction.getFee] of [@bsv/sdk], which is
    not part of this repository.  "fee = sum(input values) - sum(output
    values)"; the SDK throws when an input has no source transaction. *)
Definition getFee (tx : Transaction) : option Z :=
  if forallb (fun i => match sourceTransaction i with
                       | Some _ => true | None => false end) (inputs tx)
  then Some (fold_left Z.add (map sourceSatoshis (inputs tx)) 0
             - fold_left Z.add (outputs tx) 0)
  else None.

(** The condition of the [if] that guards
    [throw new Error('Fee too high, aborting')]. *)
Definition feeTooHigh (sats : Z) (size : N) : bool :=
  let kb := JsNumber.div (JsNumber.ofN size) (JsNumber.ofZ 1000) in
  let satsPerKb := JsNumber.div (JsNumber.ofZ sats) kb in
  (1 <? sats) && JsNumber.gtb satsPerKb (JsNumber.ofZ 10).

(** The same condition computed as the runtime does, in IEEE 754
    binary64.  The conversion from integers is exact below 2^53. *)
Definition toBinary64 (z : Z) : PrimFloat.float :=
  if z <? 0
  then PrimFloat.opp (PrimFloat.of_uint63 (Uint63.of_Z (- z)))
  else PrimFloat.of_uint63 (Uint63.of_Z z).

Definition feeTooHighBinary64 (sats : Z) (size : N) : bool :=
  let kb := PrimFloat.div (toBinary64 (Z.of_N size)) (toBinary64 1000) in
  let satsPerKb := PrimFloat.div (toBinary64 sats) kb in
  (1 <? sats) && PrimFloat.ltb (toBinary64 10) satsPerKb.

Record SignableTransaction := {
  tx : list N;
  reference : jsstring
}.

Record CreateActionInput := {
  inputDescription : jsstring;
  unlockingScriptLength : Z;
  outpoint : jsstring
}.

(** The parts of [@bsv/sdk] the sweep calls on proof bundles and
    transactions. *)
Class TxSdk `{Sdk} := {
  Beef : Type;
  (** [new Beef()] *)
  newBeef : Beef;
  (** [beef.mergeBeef(Utils.toArray(beefHex, 'hex'))]; [None] when it
      throws. *)
  mergeBeef : Beef -> jsstring -> option Beef;
  (** [Transaction.fromAtomicBEEF(bytes)]; [None] when it throws. *)
  fromAtomicBEEF : list N -> option Transaction;
  (** [await tx.fee(); await tx.sign()] with the given key attached to
      each input, then [input.unlockingScript.toHex()] for each input;
      [None] when a step throws. *)
  sign : Transaction -> list PrivateKey -> option (list jsstring);
  (** [tx.toHex()] of the signed transaction. *)
  toHex : Transaction -> list jsstring -> jsstring
}.

(** The wallet ([WalletClient]). *)
Class Wallet `{TxSdk} := {
  (** [(await wallet.isAuthenticated()).authenticated]; [None] when the
      call throws. *)
  isAuthenticated : option bool;
  (** [(await wallet.createAction({inputBEEF, description, inputs}))
      .signableTransaction]; outer [None] when the call throws. *)
  createAction :
    Beef -> list CreateActionInput -> option (option SignableTransaction);
  (** [(await wallet.signAction({reference, spends, options})).txid];
      outer [None] when the call throws. *)
  signAction : jsstring -> list jsstring -> option (option jsstring)
}.

(** ** JavaScript objects used as string-keyed maps *)

Module JsObject.

(** Own properties in insertion order, which is the order
    [Object.entries] reports for keys that are not array indices.  The
    keys here are transaction ids ([isTxid]): 64 hexadecimal digits, which
    is neither an array index nor the name of a property inherited from
    [Object.prototype].  For other keys the runtime differs (an inherited
    name is found by [o[k]] without being an own property, and array
    indices are listed first); a theorem whose statement depends on it
    has the shape of the keys among its hypotheses. *)
Definition t (V : Type) := list (jsstring * V).

(** [o[k]] *)
Fixpoint get {V} (k : jsstring) (o : t V) : option V :=
  match o with
  | [] => None
  | (k', v) :: o' => if JsString.eqb k' k then Some v else get k o'
  end.

(** [o[k] = v] *)
Fixpoint set {V} (k : jsstring) (v : V) (o : t V) : t V :=
  match o with
  | [] => [(k, v)]
  | (k', v') :: o' =>
    if JsString.eqb k' k then (k', v) :: o' else (k', v') :: set k v o'
  end.

Definition entries {V} (o : t V) : list (jsstring * V) := o.

End JsObject.

(** ** Sweep: [createIngestTx] *)

(** One element of a list stored in [utxosByTxid]; [kvalue] is the
    source's [value] field. *)
Record KeyedUtxo `{Sdk} := {
  vout : Z;
  privKey : PrivateKey;
  kvalue : Z
}.

(** What the sweep does to the outside, in program order. *)
Inductive Event `{Sdk} :=
| Alert (message : jsstring)
| ConsoleError (e : Error)
(** [input.unlockingScriptTemplate = new P2PKH().unlock(privKey)] *)
| Unlock (input : TransactionInput) (key : PrivateKey)
(** [tx.sign()] returned *)
| Signed (t : Transaction)
(** [wallet.signAction] was called *)
| SignActionCalled (ref : jsstring).

Record SweepState `{Sdk} := {
  app : App.State;
  trace : list Event
}.

(** State and exceptions. *)
Definition M `{Sdk} (A : Type) : Type := SweepState -> SweepState * (Error + A).

Definition ret `{Sdk} {A} (a : A) : M A := fun st => (st, inr a).

Definition bind `{Sdk} {A B} (c : M A) (k : A -> M B) : M B :=
  fun st =>
    match c st with
    | (st', inl e) => (st', inl e)
    | (st', inr a) => k a st'
    end.

Definition throw `{Sdk} {A} (e : Error) : M A := fun st => (st, inl e).

Definition orThrow `{Sdk} {A} (o : option A) (e : Error) : M A :=
  match o with Some a => ret a | None => throw e end.

Definition ofSum `{Sdk} {A} (r : Error + A) : M A := fun st => (st, r).

Definition modify `{Sdk} (f : App.State -> App.State) : M unit :=
  fun st => ({| app := f (app st); trace := trace st |}, inr tt).

Definition emit `{Sdk} (ev : Event) : M unit :=
  fun st => ({| app := app st; trace := trace st ++ [ev] |}, inr tt).

Declare Scope sweep_scope.
Delimit Scope sweep_scope with sweep.
Notation "x <- c ;; k" := (bind c (fun x => k))
  (at level 61, c at next level, right associativity) : sweep_scope.
Notation "c ;; k" := (bind c (fun _ => k))
  (at level 61, right associativity) : sweep_scope.

(** [xs.forEach(f)] / [for (const x of xs)] with a body that may throw. *)
Fixpoint forEach `{Sdk} {A} (f : A -> M unit) (xs : list A) : M unit :=
  match xs with
  | [] => ret tt
  | x :: xs' => bind (f x) (fun _ => forEach f xs')
  end.

(** [if (!utxosByTxid[txid]) utxosByTxid[txid] = [];
     utxosByTxid[txid].push({ vout, privKey, value })] *)
Definition pushUtxo `{Sdk} (privKey : PrivateKey) (utxo : wocUTXO)
    (utxosByTxid : JsObject.t (list KeyedUtxo)) : JsObject.t (list KeyedUtxo) :=
  let txid := tx_hash utxo in
  let utxosByTxid :=
    match JsObject.get txid utxosByTxid with
    | None => JsObject.set txid [] utxosByTxid
    | Some _ => utxosByTxid
    end in
  match JsObject.get txid utxosByTxid with
  | Some l =>
    JsObject.set txid
      (l ++ [{| vout := tx_pos utxo; privKey := privKey;
                kvalue := value utxo |}]) utxosByTxid
  | None => utxosByTxid
  end.

(** The callback of [results.forEach]: one registry entry. *)
Definition addEntry `{Sdk} (seed : Seed) (res : Result)
    (utxosByTxid : JsObject.t (list KeyedUtxo))
    : Error + JsObject.t (list KeyedUtxo) :=
  let fullPath := fullPath (pathPrefix res) (index res) in
  match derive seed fullPath with
  | None => inl (Thrown (JsString.lit "derive"))
  | Some privKey =>
    inr (fold_left (fun m utxo => pushUtxo privKey utxo m)
                   (result (utxos res)) utxosByTxid)
  end.

(** [results.forEach(res => ...)] starting from [utxosByTxid]. *)
Fixpoint buildKeyMapFrom `{Sdk} (seed : Seed) (rs : list Result)
    (utxosByTxid : JsObject.t (list KeyedUtxo))
    : Error + JsObject.t (list KeyedUtxo) :=
  match rs with
  | [] => inr utxosByTxid
  | res :: rs' =>
    match addEntry seed res utxosByTxid with
    | inl e => inl e
    | inr m => buildKeyMapFrom seed rs' m
    end
  end.

Definition buildKeyMap `{Sdk} (seed : Seed) (rs : list Result)
    : Error + JsObject.t (list KeyedUtxo) :=
  buildKeyMapFrom seed rs [].

(** The [for (const [txid, utxoList] of Object.entries(utxosByTxid))]
    loop: fetch and merge a proof bundle per source transaction, and
    describe every output to spend. *)
Fixpoint gatherBeef `{Wallet} `{Provider}
    (entries : list (jsstring * list KeyedUtxo))
    (beef : Beef) (inputs : list CreateActionInput)
    : M (Beef * list CreateActionInput) :=
  match entries with
  | [] => ret (beef, inputs)
  | (txid, utxoList) :: rest =>
    (modify (App.setIsLoading
               (JsString.lit "Fetching BEEF for txid " ++ txid
                ++ JsString.lit "...")) ;;
     beefHex <- orThrow (txBeef txid) (Thrown (JsString.lit "beef")) ;;
     beef' <- orThrow (mergeBeef beef beefHex)
                      (Thrown (JsString.lit "mergeBeef")) ;;
     gatherBeef rest beef'
       (inputs ++
        map (fun utxo =>
               {| inputDescription := JsString.lit "from mnemonic";
                  unlockingScriptLength := 108;
                  outpoint := txid ++ JsString.lit "."
                              ++ JsString.ofNumber (vout utxo) |})
            utxoList))%sweep
  end.

(** The callback of the signing [tx.inputs.forEach]: which key an input
    gets, or the exception thrown instead. *)
Definition resolveKey `{Sdk} (utxosByTxid : JsObject.t (list KeyedUtxo))
    (input : TransactionInput) : Error + PrivateKey :=
  match sourceTransaction input with
  | None =>
    inl (TypeError
           (JsString.lit "Cannot read properties of undefined (reading 'id')"))
  | Some txid =>
    match JsObject.get txid utxosByTxid with
    | None =>
      inl (TypeError
             (JsString.lit
                "Cannot read properties of undefined (reading 'find')"))
    | Some utxoList =>
      match find (fun utxo => vout utxo =? sourceOutputIndex input)
                 utxoList with
      | Some utxo => inr (privKey utxo)
      | None =>
        inl (JsError (JsString.lit "Failed to find private key for input: "
                      ++ txid ++ JsString.lit "."
                      ++ JsString.ofNumber (sourceOutputIndex input)))
      end
    end
  end.

(** The signing loop; the keys are returned in input order. *)
Fixpoint unlockInputs `{Sdk} (utxosByTxid : JsObject.t (list KeyedUtxo))
    (ins : list TransactionInput) : M (list PrivateKey) :=
  match ins with
  | [] => ret []
  | input :: rest =>
    (key <- ofSum (resolveKey utxosByTxid input) ;;
     emit (Unlock input key) ;;
     keys <- unlockInputs utxosByTxid rest ;;
     ret (key :: keys))%sweep
  end.

(** [!txid] for a [txid] that is a string or [undefined]. *)
Definition falsy (txid : option jsstring) : bool :=
  match txid with
  | None => true
  | Some [] => true
  | Some _ => false
  end.

(** What the sweep holds once the wallet has proposed a transaction. *)
Record Prepared `{Sdk} := {
  utxosByTxid : JsObject.t (list KeyedUtxo);
  signableTransaction : SignableTransaction;
  candidate : Transaction
}.

Definition feeTooHighError : Error :=
  JsError (JsString.lit "Fee too high, aborting").

(** From the start of the [try] block to
    [const tx = Transaction.fromAtomicBEEF(signableTransaction.tx)].
    [mnemonic], [pin] and [results] are the values the handler closed
    over. *)
Definition obtainTransaction `{Wallet} `{Provider}
    (mnemonic pin : jsstring) (results : list Result) : M Prepared :=
  (modify (App.setIsLoading (JsString.lit "Creating ingest transaction...")) ;;
   seed <- orThrow (toSeed mnemonic pin) (Thrown (JsString.lit "toSeed")) ;;
   (if fromSeed seed then ret tt
    else throw (Thrown (JsString.lit "fromSeed"))) ;;
   utxosByTxid <- ofSum (buildKeyMap seed results) ;;
   bi <- gatherBeef (JsObject.entries utxosByTxid) newBeef [] ;;
   modify (App.setIsLoading (JsString.lit "Creating outputs for Wallet")) ;;
   created <- orThrow (createAction (fst bi) (snd bi))
                      (Thrown (JsString.lit "createAction")) ;;
   signableTransaction <-
     orThrow created (JsError (JsString.lit "Failed to create action")) ;;
   tx <- orThrow (fromAtomicBEEF (tx signableTransaction))
                 (Thrown (JsString.lit "fromAtomicBEEF")) ;;
   ret {| utxosByTxid := utxosByTxid;
          signableTransaction := signableTransaction;
          candidate := tx |})%sweep.

(** "We check that the fees are reasonable for the size of the tx." *)
Definition feeCheck `{Sdk} (tx : Transaction) : M unit :=
  (sats <- orThrow (getFee tx) (Thrown (JsString.lit "getFee")) ;;
   if feeTooHigh sats (binaryLength tx)
   then throw feeTooHighError
   else ret tt)%sweep.

(** From [setIsLoading('Signing Tx')] to [setResults([])]. *)
Definition signAndSubmit `{Wallet} (p : Prepared) : M unit :=
  (modify (App.setIsLoading (JsString.lit "Signing Tx")) ;;
   keys <- unlockInputs (utxosByTxid p) (inputs (candidate p)) ;;
   spends <- orThrow (sign (candidate p) keys)
                     (Thrown (JsString.lit "sign")) ;;
   emit (Signed (candidate p)) ;;
   modify (App.setIsLoading (JsString.lit "Broadcasting...")) ;;
   emit (SignActionCalled (reference (signableTransaction p))) ;;
   signed <- orThrow (signAction (reference (signableTransaction p)) spends)
                     (Thrown (JsString.lit "signAction")) ;;
   (if falsy signed
    then throw (JsError (JsString.lit "Failed to broadcast transaction"))
    else ret tt) ;;
   modify (App.setTxHex (toHex (candidate p) spends)) ;;
   modify (App.setResults (fun _ => [])))%sweep.

(** The body of the outer [try] of [createIngestTx]. *)
Definition sweepBody `{Wallet} `{Provider}
    (mnemonic pin : jsstring) (results : list Result) : M unit :=
  (p <- obtainTransaction mnemonic pin results ;;
   feeCheck (candidate p) ;;
   signAndSubmit p)%sweep.

(** How a call of [createIngestTx] ended. *)
Inductive Outcome :=
| Returned                   (* an early [return] after [alert] *)
| Completed                  (* the [try] block ran to its end *)
| Caught (e : Error).        (* the [catch] clause ran *)

Definition walletAlert : jsstring :=
  JsString.lit "Unable to connect to wallet, please download Metanet Desktop from https://metanet.bsvb.tech and use Chrome".

(** [try { body } catch (error) { console.error({ error }) }
     finally { setIsLoading('') }] *)
Definition tryCatchFinally `{Sdk} (body : M unit) (st : SweepState)
    : SweepState * Outcome :=
  let '(st1, r) := body st in
  let '(st2, o) :=
    match r with
    | inr _ => (st1, Completed)
    | inl e => ({| app := app st1; trace := trace st1 ++ [ConsoleError e] |},
                Caught e)
    end in
  ({| app := App.setIsLoading [] (app st2); trace := trace st2 |}, o).

Definition createIngestTx `{Wallet} `{Provider} (s : App.State)
    : SweepState * Outcome :=
  let st := {| app := s; trace := [] |} in
  match isAuthenticated with
  | Some true =>
    if (Z.of_nat (length (App.results s)) =? 0)
    then ({| app := s; trace := [Alert (JsString.lit "No outputs found to ingest")] |},
          Returned)
    else tryCatchFinally
           (sweepBody (App.mnemonic s) (App.pin s) (App.results s)) st
  | _ => ({| app := s; trace := [Alert walletAlert] |}, Returned)
  end.

(** ** Request queue: [queuedFetch] and [processQueue]

    JavaScript runs one synchronous segment at a time; a segment ends at
    an [await] or at the end of the function.  The embedding is a
    labelled transition system whose steps are exactly these segments.
    Assumptions on the runtime: a segment reads one value of [Date.now()];
    [Date.now()] never decreases; a [setTimeout(f, d)] callback runs no
    earlier than [d] ms after it was armed. *)

Module Dispatcher.

Definition MIN_INTERVAL : Z := 334.

(** An element of [requestQueue].  [ticket] stands for the pair of
    [resolve] / [reject] callbacks, that is for the caller's promise: the
    number of requests enqueued before this one. *)
Record Request := {
  url : jsstring;
  ticket : nat
}.

(** A call of [processQueue] suspended at one of its two [await]s. *)
Inductive Activation :=
| Sleeping (due : Z)          (* at [await new Promise(setTimeout ...)] *)
| Fetching (item : Request).  (* at [await fetch(item.url)] *)

Record State := {
  (** module variables *)
  requestQueue : list Request;
  isProcessing : bool;
  lastRequestTime : Z;
  (** the runtime: [Date.now()] and the suspended calls of
      [processQueue] *)
  clock : Z;
  workers : list Activation;
  (** history: every request passed to [queuedFetch], oldest first;
      every [fetch] issued with the time of issue, newest first; every
      promise settled ([true] for [resolve]), newest first *)
  enqueued : list Request;
  dispatched : list (Request * Z);
  settled : list (Request * bool)
}.

Definition initial (now : Z) : State :=
  {| requestQueue := []; isProcessing := false; lastRequestTime := 0;
     clock := now; workers := [];
     enqueued := []; dispatched := []; settled := [] |}.

(** [lastRequestTime = Date.now(); const item = requestQueue.shift()!;
     try { await fetch(item.url) ...].  With an empty queue [item] is
    [undefined]: [item.url] throws inside the [try], [item.reject] throws
    inside the [catch], and the call ends with [isProcessing] still set. *)
Definition afterWait (st : State) : State * option Activation :=
  match requestQueue st with
  | [] =>
    ({| requestQueue := []; isProcessing := isProcessing st;
        lastRequestTime := clock st; clock := clock st;
        workers := workers st; enqueued := enqueued st;
        dispatched := dispatched st; settled := settled st |}, None)
  | item :: rest =>
    ({| requestQueue := rest; isProcessing := isProcessing st;
        lastRequestTime := clock st; clock := clock st;
        workers := workers st; enqueued := enqueued st;
        dispatched := (item, clock st) :: dispatched st;
        settled := settled st |}, Some (Fetching item))
  end.

(** From the test of the [while] to the next [await], or to the end of
    [processQueue]. *)
Definition loopHead (st : State) : State * option Activation :=
  if (0 <? Z.of_nat (length (requestQueue st))) then
    let now := clock st in
    let timeSinceLast := now - lastRequestTime st in
    if timeSinceLast <? MIN_INTERVAL
    then (st, Some (Sleeping (now + (MIN_INTERVAL - timeSinceLast))))
    else afterWait st
  else
    ({| requestQueue := requestQueue st; isProcessing := false;
        lastRequestTime := lastRequestTime st; clock := clock st;
        workers := workers st; enqueued := enqueued st;
        dispatched := dispatched st; settled := settled st |}, None).

Definition suspend (r : State * option Activation) : State :=
  let '(st, a) := r in
  match a with
  | None => st
  | Some w =>
    {| requestQueue := requestQueue st; isProcessing := isProcessing st;
       lastRequestTime := lastRequestTime st; clock := clock st;
       workers := workers st ++ [w]; enqueued := enqueued st;
       dispatched := dispatched st; settled := settled st |}
  end.

(** [processQueue()], up to its first [await]. *)
Definition processQueue (st : State) : State :=
  suspend (loopHead
    {| requestQueue := requestQueue st; isProcessing := true;
       lastRequestTime := lastRequestTime st; clock := clock st;
       workers := workers st; enqueued := enqueued st;
       dispatched := dispatched st; settled := settled st |}).

(** [queuedFetch(url)] *)
Definition queuedFetch (u : jsstring) (st : State) : State :=
  let item := {| url := u; ticket := length (enqueued st) |} in
  let st1 :=
    {| requestQueue := requestQueue st ++ [item];
       isProcessing := isProcessing st;
       lastRequestTime := lastRequestTime st; clock := clock st;
       workers := workers st; enqueued := enqueued st ++ [item];
       dispatched := dispatched st; settled := settled st |} in
  if negb (isProcessing st1) then processQueue st1 else st1.

Fixpoint removeNth {A} (k : nat) (l : list A) : list A :=
  match k, l with
  | _, [] => []
  | O, _ :: l' => l'
  | S k', x :: l' => x :: removeNth k' l'
  end.

Definition withWorkers (ws : list Activation) (st : State) : State :=
  {| requestQueue := requestQueue st; isProcessing := isProcessing st;
     lastRequestTime := lastRequestTime st; clock := clock st;
     workers := ws; enqueued := enqueued st;
     dispatched := dispatched st; settled := settled st |}.

(** What can happen next. *)
Inductive Label :=
| Enqueue (u : jsstring)              (* some caller runs [queuedFetch(u)] *)
| Tick (dt : N)                       (* time passes *)
| TimerFires (k : nat)                (* the timer of activation [k] *)
| FetchSettles (k : nat) (ok : bool). (* the [fetch] of activation [k] *)

(** One segment; [None] when the event cannot happen in this state. *)
Definition step (l : Label) (st : State) : option State :=
  match l with
  | Enqueue u => Some (queuedFetch u st)
  | Tick dt =>
    Some {| requestQueue := requestQueue st; isProcessing := isProcessing st;
            lastRequestTime := lastRequestTime st;
            clock := clock st + Z.of_N dt;
            workers := workers st; enqueued := enqueued st;
            dispatched := dispatched st; settled := settled st |}
  | TimerFires k =>
    match nth_error (workers st) k with
    | Some (Sleeping due) =>
      if due <=? clock st
      then Some (suspend (afterWait (withWorkers (removeNth k (workers st)) st)))
      else None
    | _ => None
    end
  | FetchSettles k ok =>
    match nth_error (workers st) k with
    | Some (Fetching item) =>
      let st1 := withWorkers (removeNth k (workers st)) st in
      let st2 :=
        {| requestQueue := requestQueue st1; isProcessing := isProcessing st1;
           lastRequestTime := lastRequestTime st1; clock := clock st1;
           workers := workers st1; enqueued := enqueued st1;
           dispatched := dispatched st1;
           settled := (item, ok) :: settled st1 |} in
      Some (suspend (loopHead st2))
    | _ => None
    end
  end.

Fixpoint run (ls : list Label) (st : State) : option State :=
  match ls with
  | [] => Some st
  | l :: ls' =>
    match step l st with
    | Some st' => run ls' st'
    | None => None
    end
  end.

(** Consecutive entries of a newest-first log are at least
    [MIN_INTERVAL] apart. *)
Fixpoint spaced (log : list (Request * Z)) : Prop :=
  match log with
  | [] => True
  | (_, t2) :: rest =>
    match rest with
    | [] => True
    | (_, t1) :: _ => MIN_INTERVAL <= t2 - t1
    end /\ spaced rest
  end.

(** What holds between segments. *)
Definition lastDispatchRecorded (st : State) : Prop :=
  match dispatched st with
  | [] => True
  | (_, t) :: _ => t = lastRequestTime st
  end.

Definition history (st : State) : Prop :=
  enqueued st = rev (map fst (dispatched st)) ++ requestQueue st
  /\ map ticket (enqueued st) = seq 0 (length (enqueued st))
  /\ spaced (dispatched st)
  /\ lastDispatchRecorded st.

Definition oneWorker (st : State) : Prop :=
  (workers st = [] /\ isProcessing st = false)
  \/ (exists due, workers st = [Sleeping due] /\ isProcessing st = true
                  /\ requestQueue st <> []
                  /\ lastRequestTime st + MIN_INTERVAL <= due)
  \/ (exists item, workers st = [Fetching item] /\ isProcessing st = true).

Definition invariant (st : State) : Prop := history st /\ oneWorker st.

(** A run used as an example: two requests, the second enqueued while
    the first is in flight. *)
Definition sampleRun : list Label :=
  [ Enqueue (JsString.lit "u1"); Tick 10; Enqueue (JsString.lit "u2");
    Tick 90; FetchSettles 0 true; Tick 234; TimerFires 0 ].

(** The state that run ends in: both requests issued, 334 ms apart, the
    second still in flight. *)
Definition sampleFinal : State :=
  let r1 := {| url := JsString.lit "u1"; ticket := 0 |} in
  let r2 := {| url := JsString.lit "u2"; ticket := 1 |} in
  {| requestQueue := []; isProcessing := true; lastRequestTime := 1334;
     clock := 1334; workers := [Fetching r2]; enqueued := [r1; r2];
     dispatched := [(r2, 1334); (r1, 1000)]; settled := [(r1, true)] |}.

End Dispatcher.

(** ** Specification-side definitions

    These follow the wording of the specification, not the code, and are
    what the code above is compared with. *)

(** The entries of [l], oldest first, dropping every entry whose address
    is in [seen] or occurred earlier in [l]. *)
Fixpoint keepFirstByAddress (seen : list jsstring) (l : list Result)
    : list Result :=
  match l with
  | [] => []
  | x :: l' =>
    if existsb (JsString.eqb (address x)) seen
    then keepFirstByAddress seen l'
    else x :: keepFirstByAddress (seen ++ [address x]) l'
  end.

(** The normalisation applied to an assembled path. *)
Definition straighten (s : jsstring) : jsstring :=
  JsString.replaceAll RIGHT_SINGLE_QUOTE [APOSTROPHE] s.

(** "Entries are unioned, not replaced": the prior registry, followed by
    the newly found entries for addresses it does not have yet. *)
Definition unionByAddress (prior found : list Result) : list Result :=
  prior ++ keepFirstByAddress (map address prior) found.

(** What one loop iteration learns about the address at an index: the
    address-usage sequence of the specification, read off the same calls
    as [scanBody]. *)
Inductive Probe :=
| Unused
| Used (entry : option Result).   (* [None]: used, nothing unspent *)

Definition probe `{Sdk} `{Provider} (seed : Seed) (prefix : jsstring)
    (i : Z) : Error + Probe :=
  match derive seed (fullPath prefix i) with
  | None => inl (Thrown (JsString.lit "derive"))
  | Some privKey =>
    let address := toAddress privKey in
    match addressHistory address with
    | None => inl (Thrown (JsString.lit "history"))
    | Some history =>
      if 0 <? Z.of_nat (length history) then
        match unspentAll address with
        | None => inl (Thrown (JsString.lit "unspent"))
        | Some utxos =>
          inr (Used
            (if 0 <? Z.of_nat (length (result utxos)) then
               Some {| index := i; address := address;
                       balance := sumValues (result utxos);
                       count := Z.of_nat (length (result utxos));
                       utxos := utxos; pathPrefix := prefix |}
             else None))
        end
      else inr Unused
    end
  end.

Definition isUsed (p : Error + Probe) : bool :=
  match p with inr (Used _) => true | _ => false end.

Definition isUnused (p : Error + Probe) : bool :=
  match p with inr Unused => true | _ => false end.

Definition isError (p : Error + Probe) : bool :=
  match p with inl _ => true | _ => false end.

(** The entries for the used addresses with something unspent among the
    [n] indices from [i] on. *)
Fixpoint recorded `{Sdk} `{Provider} (seed : Seed) (prefix : jsstring)
    (i : Z) (n : nat) : list Result :=
  match n with
  | O => []
  | S n' =>
    match probe seed prefix i with
    | inr (Used (Some r)) => r :: recorded seed prefix (i + 1) n'
    | _ => recorded seed prefix (i + 1) n'
    end
  end.



Definition scanState (i cu : Z) (acc : list Result) : ScanState :=
  {| sc_index := i; sc_consecutiveUnused := cu; sc_usedResults := acc |}.

(** The registry inside a sweep state. *)
Definition registryOf `{Sdk} (st : SweepState) : list Result :=
  App.results (app st).

(** "Sats-per-kilobyte": the fee divided by the size in thousands of
    bytes, as a rational; meaningful for a size other than zero. *)
Definition satsPerKilobyte (sats : Z) (size : N) : Q :=
  inject_Z sats / (inject_Z (Z.of_N size) / inject_Z 1000).

(** The key re-derived for a registry entry: from the entry's own
    stored prefix and index. *)
Definition entryKey `{Sdk} (seed : Seed) (res : Result) : option PrivateKey :=
  derive seed (fullPath (pathPrefix res) (index res)).

Definition keyedUtxoOf `{Sdk} (key : PrivateKey) (utxo : wocUTXO) : KeyedUtxo :=
  {| vout := tx_pos utxo; privKey := key; kvalue := value utxo |}.

(** "For every unspent output under that entry, append
    [{vout, privateKey, value}] to the list keyed by the output's source
    transaction id": the list expected under [txid], in registry order. *)
Fixpoint expectedBucket `{Sdk} (seed : Seed) (rs : list Result)
    (txid : jsstring) : list KeyedUtxo :=
  match rs with
  | [] => []
  | res :: rs' =>
    match entryKey seed res with
    | Some key =>
      map (keyedUtxoOf key)
          (filter (fun utxo => JsString.eqb (tx_hash utxo) txid)
                  (result (utxos res)))
    | None => []
    end ++ expectedBucket seed rs' txid
  end.


Definition isSome {A} (o : option A) : bool :=
  match o with Some _ => true | None => false end.

(** No key of the map holds an empty list. *)
Definition noEmptyBucket `{Sdk} (m : JsObject.t (list KeyedUtxo)) : Prop :=
  forall txid, JsObject.get txid m <> Some [].

(** The list under a key, empty when the key is absent. *)
Definition bucket `{Sdk} (m : JsObject.t (list KeyedUtxo)) (txid : jsstring)
    : list KeyedUtxo :=
  match JsObject.get txid m with Some l => l | None => [] end.



(** Every fee from [-2] to [maxSats - 2] against every size from 0 to
    [maxSize]: do the exact and the binary64 conditions agree? *)
Definition binary64Agrees (maxSats maxSize : nat) : bool :=
  forallb (fun s =>
    forallb (fun b =>
      Bool.eqb (feeTooHighBinary64 (Z.of_nat s - 2) (N.of_nat b))
               ((1 <? Z.of_nat s - 2)
                && (Z.of_nat b <? 100 * (Z.of_nat s - 2))))
      (seq 0 (S maxSize)))
    (seq 0 (S maxSats)).

(** The events of a trace that belong to signing and submission. *)
Definition signingEvents `{Sdk} (t : list Event) : list Event :=
  filter (fun ev => match ev with
                    | Unlock _ _ | Signed _ | SignActionCalled _ => true
                    | _ => false
                    end) t.

(** A computation that leaves an observation [f] of the state as it
    was, whether it returns or throws. *)
Definition preserves `{Sdk} {A X} (f : SweepState -> X) (c : M A) : Prop :=
  forall st, f (fst (c st)) = f st.

(** A computation after which the registry is empty if it returned and
    as before if it threw. *)
Definition clearsOnSuccess `{Sdk} {A} (c : M A) : Prop :=
  forall st,
    App.results (app (fst (c st))) =
    match snd (c st) with
    | inr _ => []
    | inl _ => App.results (app st)
    end.

(** ** Paths with the quotation mark and with the apostrophe *)





(** ** Where the integer embedding is exact *)

(** Between [- 2^53] and [2^53] binary64 holds every integer, adds one
    without rounding and prints all the decimal digits. *)
Definition exactInteger (z : Z) : Prop := - 2 ^ 53 <= z <= 2 ^ 53.

(** Amounts that are not negative and add up to at most [2^53]: no
    partial sum of the [reduce] is rounded. *)
Definition exactSum (us : list wocUTXO) : bool :=
  forallb (fun utxo => 0 <=? value utxo) us && (sumValues us <=? 2 ^ 53).

(** A data provider that reports such amounts for every address. *)
Definition exactSums `{Provider} : Prop :=
  forall a utxos, unspentAll a = Some utxos -> exactSum (result utxos) = true.

(** [0-9], [a-f] or [A-F] *)
Definition isHexDigit (c : N) : bool :=
  ((48 <=? c) && (c <=? 57) || (97 <=? c) && (c <=? 102)
   || (65 <=? c) && (c <=? 70))%N.

(** A transaction id as the data provider writes it: 64 hexadecimal
    digits. *)
Definition isTxid (k : jsstring) : bool :=
  (length k =? 64)%nat && forallb isHexDigit k.

(** A registry entry as the scanner makes it from the data provider's
    answers: its index is an exact integer, and each of its outputs
    names a transaction id and a position that is an exact non-negative
    integer. *)
Definition wellFormedEntry (r : Result) : bool :=
  (- 2 ^ 53 <=? index r) && (index r <=? 2 ^ 53)
  && forallb (fun utxo =>
                isTxid (tx_hash utxo)
                && (0 <=? tx_pos utxo) && (tx_pos utxo <=? 2 ^ 53))
             (result (utxos r)).

(** ** Concrete data used by the examples below *)

Module Sample.

Definition utxo (txid : string) (pos v : Z) (spent : bool) : wocUTXO :=
  {| height := 800000; tx_pos := pos; tx_hash := JsString.lit txid;
     value := v; isSpentInMempoolTx := spent |}.

Definition response (addr : jsstring) (us : list wocUTXO) : utxoResponse :=
  {| resp_address := addr; error := []; result := us; script := [] |}.

Definition entry (prefix : string) (i : Z) (addr : string)
    (us : list wocUTXO) : Result :=
  {| index := i; address := JsString.lit addr; balance := sumValues us;
     count := Z.of_nat (length us);
     utxos := response (JsString.lit addr) us;
     pathPrefix := JsString.lit prefix |}.

(** A registry with one entry, and a later scan that finds the same
    address again (under another prefix, with other outputs) and one new
    address. *)
Definition prior : list Result :=
  [entry "m/44'/0/0" 3 "1Alice" [utxo "aa" 0 500 false]].

Definition found : list Result :=
  [entry "m/0'" 7 "1Alice" [utxo "bb" 1 900 false];
   entry "m/0'" 8 "1Bob" [utxo "cc" 0 250 false]].

(** A toy key scheme: the seed is the mnemonic followed by the PIN, the
    key at a path is the seed, a colon and the path, and the address of a
    key is the key itself. *)
Definition sdk : Sdk :=
  {| Seed := jsstring;
     PrivateKey := jsstring;
     toSeed := fun m p => match m with [] => None | _ => Some (m ++ p) end;
     fromSeed := fun _ => true;
     derive := fun seed path => Some (seed ++ JsString.lit ":" ++ path);
     toAddress := fun k => k |}.

Definition seed : jsstring := JsString.lit "abc".

(** The address at index [i] under prefix ["m"]. *)
Definition addressOf (i : Z) : jsstring :=
  JsString.lit "abc:m/" ++ JsString.ofNumber i.

Fixpoint lookup (a : jsstring) (table : list (jsstring * list wocUTXO))
    : option (list wocUTXO) :=
  match table with
  | [] => None
  | (k, v) :: rest => if JsString.eqb k a then Some v else lookup a rest
  end.

(** A data provider that answers from a table of used addresses. *)
Definition provider (table : list (jsstring * list wocUTXO)) : Provider :=
  {| addressHistory := fun a =>
       Some (match lookup a table with
             | Some _ => [JsString.lit "tx"]
             | None => []
             end);
     unspentAll := fun a =>
       Some (response a (match lookup a table with
                         | Some us => us
                         | None => []
                         end));
     txBeef := fun txid => Some txid |}.

(** Addresses 0 and 3 are in use, every other one is not. *)
Definition usage03 : list (jsstring * list wocUTXO) :=
  [(addressOf 0, [utxo "aa" 0 500 false]);
   (addressOf 3, [utxo "bb" 0 700 false])].

(** Address 0 holds one output that a pending transaction already spends
    and one that is free. *)
Definition pendingSpend : list (jsstring * list wocUTXO) :=
  [(addressOf 0, [utxo "aa" 0 100 true; utxo "aa" 1 50 false])].

Definition session (gapLimit : Z) : App.State :=
  {| App.mnemonic := JsString.lit "abc"; App.pin := [];
     App.pathPrefix := JsString.lit "m"; App.results := [];
     App.txHex := []; App.isLoading := [];
     App.consecutiveUnusedGap := gapLimit; App.startOffset := 0 |}.

(** A toy transaction library: a proof bundle is the list of what was
    merged into it, the wallet's bytes always decode to [t], and the
    unlocking script of an input is the key it was signed with. *)
Definition txSdk (t : Transaction) : @TxSdk sdk :=
  @Build_TxSdk sdk
    (list jsstring)                          (* Beef *)
    []                                       (* newBeef *)
    (fun b h => Some (b ++ [h]))             (* mergeBeef *)
    (fun _ => Some t)                        (* fromAtomicBEEF *)
    (fun _ (keys : list jsstring) => Some keys)   (* sign *)
    (fun _ spends => concat spends).         (* toHex *)

(** A wallet that is signed in, proposes [t] and reports a broadcast. *)
Definition wallet (t : Transaction) : @Wallet sdk (txSdk t) :=
  @Build_Wallet sdk (txSdk t)
    (Some true)                              (* isAuthenticated *)
    (fun _ _ => Some (Some {| tx := []; reference := JsString.lit "ref" |}))
    (fun _ _ => Some (Some (JsString.lit "txid"))).

Definition input (txid : string) (pos v : Z) : TransactionInput :=
  {| sourceTransaction := Some (JsString.lit txid);
     sourceOutputIndex := pos; sourceSatoshis := v |}.

(** One funded address, found under prefix ["m"] at index 0. *)
Definition funded : list Result :=
  [entry "m" 0 "abc:m/0" [utxo "aa" 0 500 false]].

(** Two entries found under different prefixes, both paid by
    transaction ["aa"], at outputs 0 and 1. *)
Definition mixed : list Result :=
  [entry "m/44'/0/0" 3 "1Alice" [utxo "aa" 0 500 false; utxo "bb" 1 20 false];
   entry "m/0'" 8 "1Bob" [utxo "aa" 1 250 false]].

(** Spends the funded output; fee 2 satoshis over 200 bytes, which is
    10 sats/kb exactly. *)
Definition txAtLimit : Transaction :=
  {| inputs := [input "aa" 0 500]; outputs := [498]; binaryLength := 200 |}.

(** The same with one byte less: fee 2 satoshis over 199 bytes. *)
Definition txAboveLimit : Transaction :=
  {| inputs := [input "aa" 0 500]; outputs := [498]; binaryLength := 199 |}.

(** Spends the funded output and one output of a transaction ["ff"]
    that the registry knows nothing about; fee 1 satoshi. *)
Definition txForeign : Transaction :=
  {| inputs := [input "aa" 0 500; input "ff" 0 10]; outputs := [509];
     binaryLength := 300 |}.

Definition sessionWith (rs : list Result) : App.State :=
  {| App.mnemonic := JsString.lit "abc"; App.pin := [];
     App.pathPrefix := JsString.lit "m"; App.results := rs;
     App.txHex := []; App.isLoading := [];
     App.consecutiveUnusedGap := 5; App.startOffset := 0 |}.


End Sample.

(** ** Further vocabulary and samples *)

(** Does the key the sweep re-derives for an entry own the entry's
    address? *)
Definition keyMatchesAddress `{Sdk} (seed : Seed) (r : Result) : bool :=
  match entryKey seed r with
  | Some key => JsString.eqb (toAddress key) (address r)
  | None => false
  end.

Module Busy.

(** A data provider for which every address has a history and one
    unspent output. *)
Definition provider : Provider :=
  {| addressHistory := fun _ => Some [JsString.lit "tx"];
     unspentAll := fun a => Some (Sample.response a [Sample.utxo "aa" 0 1 false]);
     txBeef := fun txid => Some txid |}.

End Busy.

Module Flaky.

(** The provider of [Sample.usage03], except that the history lookup
    for the address at index 2 fails. *)
Definition provider : Provider :=
  {| addressHistory := fun a =>
       if JsString.eqb a (Sample.addressOf 2) then None
       else @addressHistory (Sample.provider Sample.usage03) a;
     unspentAll := @unspentAll (Sample.provider Sample.usage03);
     txBeef := fun txid => Some txid |}.

End Flaky.

Module Ledger.

(** Two transaction ids as the data provider writes them. *)
Definition txA : string :=
  "a1a1a1a1a1a1a1a1a1a1a1a1a1a1a1a1a1a1a1a1a1a1a1a1a1a1a1a1a1a1a1a1".

Definition txB : string :=
  "b2b2b2b2b2b2b2b2b2b2b2b2b2b2b2b2b2b2b2b2b2b2b2b2b2b2b2b2b2b2b2b2".

(** Two entries found under different prefixes, each at the address of
    its own key, both paid by transaction [txA], at outputs 0 and 1. *)
Definition mixed : list Result :=
  [Sample.entry "m/44'/0/0" 3 "abc:m/44'/0/0/3"
     [Sample.utxo txA 0 500 false; Sample.utxo txB 1 20 false];
   Sample.entry "m/0'" 8 "abc:m/0'/8" [Sample.utxo txA 1 250 false]].

(** A registry that already holds the address at index 0 under prefix
    ["m"], recorded earlier with another output. *)
Definition prior : list Result :=
  [Sample.entry "m" 0 "abc:m/0" [Sample.utxo txB 2 40 false]].

End Ledger.

(** The number of records in a key map, over all its keys. *)
Definition recordCount `{Sdk} (m : JsObject.t (list KeyedUtxo)) : nat :=
  length (concat (map snd m)).

(** The unspent outputs of a registry, entry by entry. *)
Definition registryOutputs (rs : list Result) : list wocUTXO :=
  flat_map (fun r => result (utxos r)) rs.

(** The input descriptions for a key map: one per record, key by key. *)
Definition describeInputs `{Sdk} (m : JsObject.t (list KeyedUtxo))
    : list CreateActionInput :=
  flat_map (fun e =>
    map (fun utxo =>
           {| inputDescription := JsString.lit "from mnemonic";
              unlockingScriptLength := 108;
              outpoint := fst e ++ JsString.lit "."
                          ++ JsString.ofNumber (vout utxo) |})
        (snd e)) m.

(** The signing loop as a pure function: the inputs that get a key, in
    order, up to the first input that gets none, and the exception that
    input raises. *)
Fixpoint resolveAll `{Sdk} (m : JsObject.t (list KeyedUtxo))
    (ins : list TransactionInput)
    : list (TransactionInput * PrivateKey) * option Error :=
  match ins with
  | [] => ([], None)
  | input :: rest =>
    match resolveKey m input with
    | inl e => ([], Some e)
    | inr key =>
      let '(done, failure) := resolveAll m rest in
      ((input, key) :: done, failure)
    end
  end.

(** "Confirmed broadcast": the sweep got as far as the wallet's
    [signAction], every step before it having succeeded ([p] proposed,
    fee accepted, a key found for every input, the transaction signed),
    and the wallet answered with a transaction id that is not empty. *)
Definition confirmedBroadcast `{Wallet} `{Provider} (s : App.State) : Prop :=
  isAuthenticated = Some true
  /\ App.results s <> []
  /\ exists st1 p sats spends txid,
       obtainTransaction (App.mnemonic s) (App.pin s) (App.results s)
         {| app := s; trace := [] |} = (st1, inr p)
       /\ getFee (candidate p) = Some sats
       /\ feeTooHigh sats (binaryLength (candidate p)) = false
       /\ snd (resolveAll (utxosByTxid p) (inputs (candidate p))) = None
       /\ sign (candidate p)
            (map snd (fst (resolveAll (utxosByTxid p) (inputs (candidate p)))))
          = Some spends
       /\ signAction (reference (signableTransaction p)) spends
          = Some (Some txid)
       /\ txid <> [].

(** The form state of a sweep state, loading message blanked. *)
Definition quiet `{Sdk} (st : SweepState) : App.State :=
  App.setIsLoading [] (app st).

(** A computation that, loading message aside, leaves the form state as
    it was if it throws, and if it returns has emptied the registry and
    changed nothing else but the transaction hex. *)
Definition framed `{Sdk} {A} (c : M A) : Prop :=
  forall st,
    quiet (fst (c st)) =
    match snd (c st) with
    | inl _ => quiet st
    | inr _ =>
      App.setResults (fun _ => [])
        (App.setTxHex (App.txHex (app (fst (c st)))) (quiet st))
    end.

Module Queue.

Import Dispatcher.

(** The requests whose [fetch] has been issued and has not settled. *)
Definition inFlight (st : State) : list Request :=
  flat_map (fun w => match w with
                     | Fetching item => [item]
                     | Sleeping _ => []
                     end) (workers st).

(** Nothing waits without a worker, and every issued request is either
    in flight or settled, in the order of issue. *)
Definition accounted (st : State) : Prop :=
  (workers st = [] -> requestQueue st = [])
  /\ map fst (dispatched st) = inFlight st ++ map fst (settled st).

(** What is left to do before the queue is drained. *)
Definition remaining (st : State) : nat :=
  2 * length (requestQueue st) + length (inFlight st).

Definition isEnqueue (l : Label) : bool :=
  match l with Enqueue _ => true | _ => false end.

(** Four requests enqueued at once, and the events that issue all of
    them. *)
Definition burst : list Label :=
  [ Enqueue (JsString.lit "a"); Enqueue (JsString.lit "b");
    Enqueue (JsString.lit "c"); Enqueue (JsString.lit "d");
    FetchSettles 0 true; Tick 334; TimerFires 0;
    FetchSettles 0 false; Tick 334; TimerFires 0;
    FetchSettles 0 true; Tick 334; TimerFires 0 ].

End Queue.

(** * Proofs *)

(** ** Strings *)

Lemma JsString_eqb_eq a b : JsString.eqb a b = true <-> a = b.
Proof.
  unfold JsString.eqb. destruct (JsString.eq_dec a b); intuition congruence.
Qed.

Lemma JsString_eqb_refl a : JsString.eqb a a = true.
Proof. now apply JsString_eqb_eq. Qed.

Lemma JsString_eqb_neq a b : JsString.eqb a b = false <-> a <> b.
Proof.
  unfold JsString.eqb. destruct (JsString.eq_dec a b); intuition congruence.
Qed.

Lemma JsString_eqb_sym a b : JsString.eqb a b = JsString.eqb b a.
Proof.
  destruct (JsString.eqb b a) eqn:E.
  - apply JsString_eqb_eq in E. subst. apply JsString_eqb_refl.
  - apply JsString_eqb_neq in E. apply JsString_eqb_neq. congruence.
Qed.

Lemma existsb_eqb_In a (l : list jsstring) :
  existsb (JsString.eqb a) l = true <-> In a l.
Proof.
  rewrite existsb_exists. split.
  - intros (x & Hx & E). apply JsString_eqb_eq in E. now subst.
  - intros Hin. exists a. split; [assumption | apply JsString_eqb_refl].
Qed.

Lemma existsb_eqb_notIn a (l : list jsstring) :
  existsb (JsString.eqb a) l = false <-> ~ In a l.
Proof.
  pose proof (existsb_eqb_In a l) as H.
  destruct (existsb (JsString.eqb a) l); intuition congruence.
Qed.

(** ** Registry merge *)

Section Merge.

Implicit Types (r used l pre : list Result) (acc : list jsstring).

Lemma findByAddress_app a l1 l2 :
  findByAddress a (l1 ++ l2) = orElse (findByAddress a l1) (findByAddress a l2).
Proof.
  unfold findByAddress. induction l1 as [|x l1 IH]; simpl; [reflexivity|].
  destruct (JsString.eqb (address x) a); [reflexivity | exact IH].
Qed.

Lemma findByAddress_none a l :
  ~ In a (map address l) -> findByAddress a l = None.
Proof.
  unfold findByAddress. induction l as [|x l IH]; simpl; intros Hn; [reflexivity|].
  destruct (JsString.eqb (address x) a) eqn:E.
  - apply JsString_eqb_eq in E. tauto.
  - apply IH. tauto.
Qed.

Lemma filterDefined_app {A} (xs ys : list (option A)) :
  filterDefined (xs ++ ys) = filterDefined xs ++ filterDefined ys.
Proof.
  induction xs as [|[x|] xs IH]; simpl; [reflexivity | now rewrite IH | exact IH].
Qed.

(** The code's merge, with the two lists seen as one. *)
Lemma mergeResults_as_single_pass r used :
  mergeResults r used =
  filterDefined
    (map (fun a => findByAddress a (r ++ used))
         (fold_left set_add (map address (r ++ used)) [])).
Proof.
  unfold mergeResults. rewrite map_app, fold_left_app.
  f_equal. apply map_ext. intros a. now rewrite findByAddress_app.
Qed.

Lemma single_pass_keepFirst l : forall pre acc,
  (forall a, In a acc <-> In a (map address pre)) ->
  filterDefined
    (map (fun a => findByAddress a (pre ++ l))
         (fold_left set_add (map address l) acc)) =
  filterDefined (map (fun a => findByAddress a (pre ++ l)) acc)
  ++ keepFirstByAddress acc l.
Proof.
  induction l as [|x l IH]; intros pre acc Hacc; simpl.
  - symmetry. apply app_nil_r.
  - unfold set_add at 2.
    destruct (existsb (JsString.eqb (address x)) acc) eqn:E.
    + specialize (IH (pre ++ [x]) acc). rewrite <- app_assoc in IH. simpl in IH.
      apply IH. intros a. rewrite map_app, in_app_iff, <- Hacc. simpl.
      apply existsb_eqb_In in E. intuition (subst; assumption).
    + specialize (IH (pre ++ [x]) (acc ++ [address x])).
      rewrite <- app_assoc in IH. simpl in IH. rewrite IH.
      * rewrite map_app, filterDefined_app, <- app_assoc. f_equal. simpl.
        rewrite findByAddress_app, findByAddress_none.
        -- simpl. unfold findByAddress. simpl.
           now rewrite JsString_eqb_refl.
        -- rewrite <- Hacc. now apply existsb_eqb_notIn.
      * intros a. rewrite map_app, !in_app_iff, <- Hacc. reflexivity.
Qed.

Lemma mergeResults_keepFirst r used :
  mergeResults r used = keepFirstByAddress [] (r ++ used).
Proof.
  rewrite mergeResults_as_single_pass.
  apply (single_pass_keepFirst (r ++ used) [] []). reflexivity.
Qed.

Lemma findByAddress_cons a x l :
  findByAddress a (x :: l) =
  if JsString.eqb (address x) a then Some x else findByAddress a l.
Proof. reflexivity. Qed.

Lemma findByAddress_keepFirst a l : forall acc,
  findByAddress a (keepFirstByAddress acc l) =
  if existsb (JsString.eqb a) acc then None else findByAddress a l.
Proof.
  induction l as [|x l IH]; intros acc; cbn [keepFirstByAddress].
  - now destruct (existsb (JsString.eqb a) acc).
  - destruct (existsb (JsString.eqb (address x)) acc) eqn:Ex.
    + rewrite IH, findByAddress_cons.
      destruct (existsb (JsString.eqb a) acc) eqn:Ea; [reflexivity|].
      destruct (JsString.eqb (address x) a) eqn:E; [|reflexivity].
      apply JsString_eqb_eq in E. congruence.
    + rewrite !findByAddress_cons.
      destruct (JsString.eqb (address x) a) eqn:E.
      * apply JsString_eqb_eq in E. subst a. now rewrite Ex.
      * rewrite IH, existsb_app. cbn [existsb].
        rewrite (JsString_eqb_sym a), E, orb_false_r. reflexivity.
Qed.

Lemma keepFirst_membership a l : forall acc,
  In a (map address (keepFirstByAddress acc l)) <->
  ~ In a acc /\ In a (map address l).
Proof.
  induction l as [|x l IH]; intros acc; simpl; [tauto|].
  destruct (existsb (JsString.eqb (address x)) acc) eqn:Ex.
  - rewrite IH. apply existsb_eqb_In in Ex.
    intuition (subst; tauto).
  - simpl. rewrite IH, in_app_iff. simpl. apply existsb_eqb_notIn in Ex.
    destruct (JsString.eq_dec (address x) a) as [E|Hne].
    + subst a. tauto.
    + tauto.
Qed.

Lemma keepFirst_distinct l : forall acc,
  NoDup (map address (keepFirstByAddress acc l)).
Proof.
  induction l as [|x l IH]; intros acc; simpl; [constructor|].
  destruct (existsb (JsString.eqb (address x)) acc); [apply IH|].
  simpl. constructor; [|apply IH].
  rewrite keepFirst_membership, in_app_iff. simpl. tauto.
Qed.

Lemma keepFirst_distinct_prefix r : forall acc used,
  NoDup (map address r) ->
  (forall a, In a acc -> ~ In a (map address r)) ->
  keepFirstByAddress acc (r ++ used) =
  r ++ keepFirstByAddress (acc ++ map address r) used.
Proof.
  induction r as [|x r IH]; intros acc used Hnd Hdisj; simpl.
  - now rewrite app_nil_r.
  - simpl in Hnd. inversion Hnd as [|? ? Hx Hnd']; subst.
    destruct (existsb (JsString.eqb (address x)) acc) eqn:Ex.
    + apply existsb_eqb_In in Ex. exfalso. apply (Hdisj _ Ex). now left.
    + f_equal. rewrite IH; [|assumption|].
      * now rewrite <- app_assoc.
      * intros a Ha. apply in_app_iff in Ha. simpl in Ha.
        destruct Ha as [Ha|[<-|[]]]; [|assumption].
        intros Hin. apply (Hdisj _ Ha). now right.
Qed.

(** The registry never holds two entries for one address. *)
Lemma mergeResults_distinct r used :
  NoDup (map address (mergeResults r used)).
Proof. rewrite mergeResults_keepFirst. apply keepFirst_distinct. Qed.

(** The merge is a union by address in which prior entries win. *)
Lemma mergeResults_union r used :
  (forall a, In a (map address (mergeResults r used)) <->
             In a (map address r) \/ In a (map address used)) /\
  (forall a, findByAddress a (mergeResults r used) =
             orElse (findByAddress a r) (findByAddress a used)).
Proof.
  rewrite mergeResults_keepFirst. split; intros a.
  - rewrite keepFirst_membership, map_app, in_app_iff. simpl. tauto.
  - rewrite findByAddress_keepFirst. simpl. apply findByAddress_app.
Qed.

(** C10: on a registry with one entry per address, the merge returns the
    prior entries themselves, in place and untouched, followed by the
    scan's entries for addresses the registry did not have; what the scan
    found for an address already present is dropped. *)
Theorem C10_merge_keeps_prior_entries r used :
  NoDup (map address r) ->
  mergeResults r used = unionByAddress r used.
Proof.
  intros Hnd. rewrite mergeResults_keepFirst. unfold unionByAddress.
  rewrite keepFirst_distinct_prefix; [reflexivity | assumption | intros a []].
Qed.

End Merge.

(** The sample registry has one entry per address, and merging the
    sample scan into it keeps the stored entry for ["1Alice"]. *)
Lemma C10_witness :
  NoDup (map address Sample.prior) /\
  mergeResults Sample.prior Sample.found
  = unionByAddress Sample.prior Sample.found.
Proof.
  assert (Hnd : NoDup (map address Sample.prior)).
  { constructor; [intros [] | constructor]. }
  split; [exact Hnd | exact (C10_merge_keeps_prior_entries _ _ Hnd)].
Defined.

Example merge_sample :
  mergeResults Sample.prior Sample.found =
  [Sample.entry "m/44'/0/0" 3 "1Alice" [Sample.utxo "aa" 0 500 false];
   Sample.entry "m/0'" 8 "1Bob" [Sample.utxo "cc" 0 250 false]].
Proof. reflexivity. Qed.

(** ** Address scanner *)

Section Scan.

Context `{sdk : Sdk} `{provider : Provider}.
Variables (seed : Seed) (prefix : jsstring) (gap : Z).

(** One iteration, in terms of what it learns about its index. *)
Lemma scanBody_probe st :
  scanBody seed prefix st =
  match probe seed prefix (sc_index st) with
  | inl e => inl e
  | inr Unused =>
    inr (scanState (sc_index st + 1) (sc_consecutiveUnused st + 1)
                   (sc_usedResults st))
  | inr (Used e) =>
    inr (scanState (sc_index st + 1) 0
           (sc_usedResults st ++ match e with Some r => [r] | None => [] end))
  end.
Proof.
  unfold scanBody, probe, scanState.
  destruct (derive seed (fullPath prefix (sc_index st))) as [k|]; [|reflexivity].
  destruct (addressHistory (toAddress k)) as [h|]; [|reflexivity].
  destruct (0 <? Z.of_nat (length h)); [|reflexivity].
  destruct (unspentAll (toAddress k)) as [u|]; [|reflexivity].
  destruct (0 <? Z.of_nat (length (result u))); [reflexivity|].
  now rewrite app_nil_r.
Qed.

Lemma scanLoop_unfold fuel st :
  scanLoop (S fuel) seed prefix gap st =
  if sc_consecutiveUnused st <? gap then
    match scanBody seed prefix st with
    | inl e => Some (st, Broke e)
    | inr st' => scanLoop fuel seed prefix gap st'
    end
  else Some (st, GapReached).
Proof. reflexivity. Qed.

Lemma isUsed_inv p : isUsed p = true -> exists e, p = inr (Used e).
Proof. destruct p as [|[|e]]; try discriminate. now exists e. Qed.

Lemma isUnused_inv p : isUnused p = true -> p = inr Unused.
Proof. destruct p as [|[|e]]; try discriminate. reflexivity. Qed.

(** The closing run of unused addresses: the counter climbs to the gap
    limit and the loop stops there. *)
Lemma scan_tail m : forall i cu acc fuel,
  0 <= cu -> cu + Z.of_nat m = gap ->
  (forall k, i <= k < i + Z.of_nat m ->
             isUnused (probe seed prefix k) = true) ->
  scanLoop (m + S fuel) seed prefix gap (scanState i cu acc) =
  Some (scanState (i + Z.of_nat m) gap acc, GapReached).
Proof.
  induction m as [|m IH]; intros i cu acc fuel Hcu Hsum Hun.
  - cbn [Nat.add]. rewrite scanLoop_unfold. cbn [scanState sc_consecutiveUnused].
    replace (cu <? gap) with false by (symmetry; apply Z.ltb_ge; lia).
    do 2 f_equal. unfold scanState. f_equal; lia.
  - cbn [Nat.add]. rewrite scanLoop_unfold. cbn [scanState sc_consecutiveUnused].
    replace (cu <? gap) with true by (symmetry; apply Z.ltb_lt; lia).
    rewrite scanBody_probe.
    cbn [scanState sc_index sc_consecutiveUnused sc_usedResults].
    rewrite (isUnused_inv _ (Hun i ltac:(lia))).
    rewrite IH; [|lia|lia|intros k Hk; apply Hun; lia].
    do 2 f_equal. unfold scanState. f_equal; lia.
Qed.

Section UpToLastUsed.

Variables (s L : Z).
Hypothesis gap_pos : 1 <= gap.
Hypothesis last_used : isUsed (probe seed prefix L) = true.
Hypothesis error_free :
  forall i, s <= i < L -> isError (probe seed prefix i) = false.
Hypothesis no_earlier_gap :
  forall j, s <= j -> j + gap <= L ->
  exists k, j <= k < j + gap /\ isUsed (probe seed prefix k) = true.

Lemma recorded_step i n :
  recorded seed prefix i (S n) =
  match probe seed prefix i with
  | inr (Used (Some r)) => [r]
  | _ => []
  end ++ recorded seed prefix (i + 1) n.
Proof.
  cbn [recorded]. destruct (probe seed prefix i) as [|[|[r|]]]; reflexivity.
Qed.

(** From the start offset to the last used address the counter stays
    below the gap limit, so the loop reaches that address and resets. *)
Lemma scan_head n : forall i cu acc fuel,
  Z.of_nat (S n) = L + 1 - i -> s <= i ->
  0 <= cu < gap -> cu <= i - s ->
  (forall k, i - cu <= k < i -> isUnused (probe seed prefix k) = true) ->
  scanLoop (S n + fuel) seed prefix gap (scanState i cu acc) =
  scanLoop fuel seed prefix gap
    (scanState (L + 1) 0 (acc ++ recorded seed prefix i (S n))).
Proof.
  induction n as [|n IH]; intros i cu acc fuel Hn Hs Hcu Hcus Hun.
  - assert (i = L) by lia. subst i.
    cbn [Nat.add]. rewrite scanLoop_unfold. cbn [scanState sc_consecutiveUnused].
    replace (cu <? gap) with true by (symmetry; apply Z.ltb_lt; lia).
    rewrite scanBody_probe.
    cbn [scanState sc_index sc_consecutiveUnused sc_usedResults].
    rewrite recorded_step. cbn [recorded]. rewrite app_nil_r.
    destruct (isUsed_inv _ last_used) as [e ->].
    destruct e; reflexivity.
  - change (S (S n) + fuel)%nat with (S (S n + fuel)).
    rewrite scanLoop_unfold. cbn [scanState sc_consecutiveUnused].
    replace (cu <? gap) with true by (symmetry; apply Z.ltb_lt; lia).
    rewrite scanBody_probe.
    cbn [scanState sc_index sc_consecutiveUnused sc_usedResults].
    rewrite (recorded_step i (S n)).
    pose proof (error_free i ltac:(lia)) as Hfree.
    destruct (probe seed prefix i) as [err|[|e]] eqn:Hp; [discriminate| |].
    + (* unused: the counter may not reach the limit before [L] *)
      assert (cu + 1 < gap).
      { destruct (Z.eq_dec (cu + 1) gap) as [Heq|]; [|lia].
        destruct (no_earlier_gap (i - cu) ltac:(lia) ltac:(lia))
          as (k & Hk & Hused).
        assert (Hk' : isUnused (probe seed prefix k) = true).
        { destruct (Z.eq_dec k i) as [->|]; [now rewrite Hp | apply Hun; lia]. }
        apply isUsed_inv in Hused. destruct Hused as [e He].
        rewrite He in Hk'. discriminate. }
      rewrite IH; [reflexivity | lia | lia | lia | lia |].
      intros k Hk. destruct (Z.eq_dec k i) as [->|]; [now rewrite Hp|].
      apply Hun. lia.
    + rewrite IH; [|lia|lia|lia|lia|intros k Hk; lia].
      now rewrite <- app_assoc.
Qed.

Lemma recorded_complete n : forall i j r,
  i <= j < i + Z.of_nat n ->
  probe seed prefix j = inr (Used (Some r)) ->
  In r (recorded seed prefix i n).
Proof.
  induction n as [|n IH]; intros i j r Hj Hp; [lia|].
  rewrite recorded_step. apply in_or_app.
  destruct (Z.eq_dec j i) as [->|Hne].
  - left. rewrite Hp. now left.
  - right. apply (IH (i + 1) j r); [lia | assumption].
Qed.

End UpToLastUsed.

End Scan.

(** C5 (amended): an error-free scan that starts at or before the last
    used address [L], with a gap limit [N >= 1], [N] unused addresses
    after [L], and no run of [N] unused addresses between the start and
    [L], stops because the gap was reached, with the cursor at
    [L + 1 + N], and has recorded exactly the used addresses with a
    non-empty unspent list between the start and [L].  The start offset,
    the gap limit and [L + 1 + N] are exact integers (at most [2^53] in
    magnitude, where [index++] still advances) and the reported amounts
    add up exactly. *)
Theorem C5_gap_limit_termination `{sdk : Sdk} `{provider : Provider}
    (seed : Seed) (prefix : jsstring) (gap s L : Z) (fuel : nat) :
  1 <= gap -> s <= L ->
  exactInteger s -> exactInteger gap -> exactInteger (L + 1 + gap) ->
  exactSums ->
  isUsed (probe seed prefix L) = true ->
  (forall i, L < i < L + 1 + gap -> isUnused (probe seed prefix i) = true) ->
  (forall i, s <= i < L -> isError (probe seed prefix i) = false) ->
  (forall j, s <= j -> j + gap <= L ->
     exists k, j <= k < j + gap /\ isUsed (probe seed prefix k) = true) ->
  (Z.to_nat (L + 1 + gap - s) < fuel)%nat ->
  scanLoop fuel seed prefix gap (scanState s 0 []) =
    Some (scanState (L + 1 + gap) gap
            (recorded seed prefix s (Z.to_nat (L + 1 - s))), GapReached)
  /\ (forall i r, s <= i <= L ->
        probe seed prefix i = inr (Used (Some r)) ->
        In r (recorded seed prefix s (Z.to_nat (L + 1 - s)))).
Proof.
  intros Hgap HsL _ _ _ _ Hused Htail Hfree Hwin Hfuel. split.
  - set (n := Z.to_nat (L - s)). set (m := Z.to_nat gap).
    replace fuel with (S n + (m + S (fuel - S n - S m)))%nat by lia.
    rewrite (scan_head seed prefix gap s L Hgap Hused Hfree Hwin n);
      [|lia|lia|lia|lia|intros k Hk; lia].
    rewrite scan_tail; [|lia|lia|intros k Hk; apply Htail; lia].
    cbn [app]. replace (Z.to_nat (L + 1 - s)) with (S n) by lia.
    do 2 f_equal. unfold scanState. f_equal. lia.
  - intros i r Hi Hp. apply recorded_complete with (j := i); [lia | exact Hp].
Qed.

(** ** Paths *)

Lemma replaceAll_app c b s1 s2 :
  JsString.replaceAll c b (s1 ++ s2) =
  JsString.replaceAll c b s1 ++ JsString.replaceAll c b s2.
Proof. unfold JsString.replaceAll. apply flat_map_app. Qed.

Lemma replaceAll_absent c b s :
  ~ In c s -> JsString.replaceAll c b s = s.
Proof.
  unfold JsString.replaceAll. induction s as [|x s IH]; intros Hn; [reflexivity|].
  cbn [flat_map]. destruct (N.eqb_spec x c) as [->|Hne].
  - exfalso. apply Hn. now left.
  - change ([x] ++ flat_map (fun x => if N.eqb x c then b else [x]) s)
      with (x :: flat_map (fun x => if N.eqb x c then b else [x]) s).
    f_equal. apply IH. intros Hin. apply Hn. now right.
Qed.





Lemma lit_ascii s : Forall (fun c => (c < 256)%N) (JsString.lit s).
Proof.
  induction s as [|a s IH]; constructor; [apply N_ascii_bounded | exact IH].
Qed.

Lemma lit_app s1 s2 :
  JsString.lit (s1 ++ s2)%string = JsString.lit s1 ++ JsString.lit s2.
Proof. induction s1 as [|a s1 IH]; [reflexivity|]. cbn. now rewrite IH. Qed.

Lemma lit_inj s1 : forall s2, JsString.lit s1 = JsString.lit s2 -> s1 = s2.
Proof.
  induction s1 as [|a s1 IH]; intros [|b s2] E; try discriminate; [reflexivity|].
  cbn in E. injection E as Hab Hs. f_equal; [|now apply IH].
  rewrite <- (ascii_N_embedding a), <- (ascii_N_embedding b). now rewrite Hab.
Qed.

Lemma to_int_not_nil z :
  Z.to_int z <> Decimal.Pos Decimal.Nil /\ Z.to_int z <> Decimal.Neg Decimal.Nil.
Proof.
  destruct z as [|p|p]; cbn; split; try discriminate;
    intros [= E]; now apply (DecimalPos.Unsigned.to_uint_nonnil p).
Qed.

Lemma ofNumber_inj a b : JsString.ofNumber a = JsString.ofNumber b -> a = b.
Proof.
  unfold JsString.ofNumber. intros E. apply lit_inj in E.
  apply (f_equal NilZero.int_of_string) in E.
  destruct (to_int_not_nil a), (to_int_not_nil b).
  rewrite !NilZero.isi in E by assumption.
  injection E as E. rewrite <- (DecimalZ.of_to a), <- (DecimalZ.of_to b).
  now rewrite E.
Qed.

Lemma straighten_ascii s : straighten (JsString.lit s) = JsString.lit s.
Proof.
  apply replaceAll_absent. intros Hin.
  pose proof (lit_ascii s) as Hall. rewrite Forall_forall in Hall.
  specialize (Hall _ Hin). unfold RIGHT_SINGLE_QUOTE in Hall. lia.
Qed.

Lemma fullPath_ascii (p : string) i :
  fullPath (JsString.lit p) i =
  JsString.lit p ++ JsString.lit "/" ++ JsString.ofNumber i.
Proof.
  unfold fullPath, JsString.ofNumber. rewrite <- !lit_app.
  apply straighten_ascii.
Qed.

Section Quotes.

Context `{sdk : Sdk} `{provider : Provider}.
Variables (seed : Seed) (gap : Z).








End Quotes.



Example right_single_quote_path :
  fullPath (JsString.lit "m/44" ++ [RIGHT_SINGLE_QUOTE] ++ JsString.lit "/0/0") 7
  = JsString.lit "m/44'/0/0/7".
Proof. vm_compute. reflexivity. Qed.

(** ** The sample data provider *)

Lemma sample_probe table i :
  @probe Sample.sdk (Sample.provider table) Sample.seed (JsString.lit "m") i =
  match Sample.lookup (Sample.addressOf i) table with
  | Some us =>
    inr (Used (if 0 <? Z.of_nat (length us)
               then Some {| index := i; address := Sample.addressOf i;
                            balance := sumValues us;
                            count := Z.of_nat (length us);
                            utxos := Sample.response (Sample.addressOf i) us;
                            pathPrefix := JsString.lit "m" |}
               else None))
  | None => inr Unused
  end.
Proof.
  unfold probe. cbn [derive toAddress addressHistory unspentAll
                     Sample.sdk Sample.provider].
  rewrite fullPath_ascii.
  change (Sample.seed ++ JsString.lit ":" ++ JsString.lit "m"
          ++ JsString.lit "/" ++ JsString.ofNumber i)
    with (Sample.addressOf i).
  destruct (Sample.lookup (Sample.addressOf i) table); reflexivity.
Qed.

Lemma sample_address_inj i j :
  Sample.addressOf i = Sample.addressOf j -> i = j.
Proof.
  unfold Sample.addressOf. intros E. apply app_inv_head in E.
  now apply ofNumber_inj.
Qed.

Lemma sample_usage03_lookup i :
  i <> 0 -> i <> 3 -> Sample.lookup (Sample.addressOf i) Sample.usage03 = None.
Proof.
  intros H0 H3. unfold Sample.usage03. cbn [Sample.lookup].
  replace (JsString.eqb (Sample.addressOf 0) (Sample.addressOf i)) with false.
  2:{ symmetry. apply JsString_eqb_neq. intros E.
      apply sample_address_inj in E. congruence. }
  replace (JsString.eqb (Sample.addressOf 3) (Sample.addressOf i)) with false.
  2:{ symmetry. apply JsString_eqb_neq. intros E.
      apply sample_address_inj in E. congruence. }
  reflexivity.
Qed.

(** The sample provider reports exact amounts when its table holds
    them. *)
Lemma sample_exactSums table :
  forallb (fun e => exactSum (snd e)) table = true ->
  @exactSums (Sample.provider table).
Proof.
  intros Htable a utxos. cbn [unspentAll Sample.provider]. intros [= <-].
  cbn [result Sample.response].
  destruct (Sample.lookup a table) as [us|] eqn:E; [|reflexivity].
  induction table as [|[k v] table IH]; [discriminate|].
  cbn [Sample.lookup] in E. cbn [forallb snd] in Htable.
  apply andb_true_iff in Htable. destruct Htable as [Hv Hrest].
  destruct (JsString.eqb k a); [injection E as <-; exact Hv | now apply IH].
Qed.

(** C5, as stated, fails when an earlier run of unused addresses reaches
    the gap limit.  Addresses 0 and 3 are used and nothing else is, no
    lookup fails, the gap limit is 2: the last used address is [L = 3],
    it is followed by unused addresses only, yet the scan from 0 stops
    with the cursor at 3 (not at [3 + 1 + 2]) and never records
    address 3. *)
Lemma C5_earlier_gap_stops_scan :
  isUsed (@probe Sample.sdk (Sample.provider Sample.usage03)
            Sample.seed (JsString.lit "m") 3) = true
  /\ (forall i, 3 < i ->
        isUnused (@probe Sample.sdk (Sample.provider Sample.usage03)
                    Sample.seed (JsString.lit "m") i) = true)
  /\ (forall i,
        isError (@probe Sample.sdk (Sample.provider Sample.usage03)
                   Sample.seed (JsString.lit "m") i) = false)
  /\ @scanLoop Sample.sdk (Sample.provider Sample.usage03) 10
       Sample.seed (JsString.lit "m") 2 (scanState 0 0 []) =
     Some (scanState 3 2
             [{| index := 0; address := Sample.addressOf 0; balance := 500;
                 count := 1;
                 utxos := Sample.response (Sample.addressOf 0)
                            [Sample.utxo "aa" 0 500 false];
                 pathPrefix := JsString.lit "m" |}],
           GapReached).
Proof.
  split; [|split; [|split]].
  - vm_compute. reflexivity.
  - intros i Hi. rewrite sample_probe, sample_usage03_lookup by lia.
    reflexivity.
  - intros i. rewrite sample_probe.
    destruct (Sample.lookup (Sample.addressOf i) Sample.usage03); reflexivity.
  - vm_compute. reflexivity.
Qed.

(** Addresses 0 and 3 used, gap limit 3, scan from 0: the cursor ends at
    7 and both addresses are recorded. *)
Lemma C5_witness :
  @scanLoop Sample.sdk (Sample.provider Sample.usage03) 10
    Sample.seed (JsString.lit "m") 3 (scanState 0 0 []) =
  Some (scanState (3 + 1 + 3) 3
          (@recorded Sample.sdk (Sample.provider Sample.usage03)
             Sample.seed (JsString.lit "m") 0 (Z.to_nat (3 + 1 - 0))),
        GapReached)
  /\ (forall i r, 0 <= i <= 3 ->
        @probe Sample.sdk (Sample.provider Sample.usage03)
          Sample.seed (JsString.lit "m") i = inr (Used (Some r)) ->
        In r (@recorded Sample.sdk (Sample.provider Sample.usage03)
                Sample.seed (JsString.lit "m") 0 (Z.to_nat (3 + 1 - 0)))).
Proof.
  apply (@C5_gap_limit_termination Sample.sdk (Sample.provider Sample.usage03)
           Sample.seed (JsString.lit "m") 3 0 3 10).
  - lia.
  - lia.
  - unfold exactInteger. lia.
  - unfold exactInteger. lia.
  - unfold exactInteger. lia.
  - apply sample_exactSums. vm_compute. reflexivity.
  - vm_compute. reflexivity.
  - intros i Hi. assert (E : i = 4 \/ i = 5 \/ i = 6) by lia.
    destruct E as [->|[->| ->]]; vm_compute; reflexivity.
  - intros i Hi. assert (E : i = 0 \/ i = 1 \/ i = 2) by lia.
    destruct E as [->|[->| ->]]; vm_compute; reflexivity.
  - intros j Hj1 Hj2. exists 0. split; [lia | vm_compute; reflexivity].
  - vm_compute. lia.
Defined.

(** C1 at the failing input: address 0 is in use and the provider lists
    two unspent outputs for it, the first flagged as spent by a pending
    transaction.  The scan records both outputs, counts two, and adds
    the flagged 100 satoshis to the balance. *)
Lemma C1_flagged_output_is_recorded :
  option_map App.results
    (@generateAddresses Sample.sdk (Sample.provider Sample.pendingSpend)
       5 (Sample.session 1)) =
  Some [{| index := 0; address := Sample.addressOf 0; balance := 150;
           count := 2;
           utxos := Sample.response (Sample.addressOf 0)
                      [Sample.utxo "aa" 0 100 true;
                       Sample.utxo "aa" 1 50 false];
           pathPrefix := JsString.lit "m" |}].
Proof. vm_compute. reflexivity. Qed.

(** ** Fee check *)

Lemma kilobytes_positive (p : positive) :
  JsNumber.signOf (inject_Z (Z.pos p) / inject_Z 1000) = Gt.
Proof.
  unfold JsNumber.signOf. apply Qgt_alt.
  unfold Qlt, Qdiv, Qmult, Qinv, inject_Z. cbn [Qnum Qden]. lia.
Qed.

Lemma rate_as_fraction (p : positive) (sats : Z) :
  (inject_Z sats / (inject_Z (Z.pos p) / inject_Z 1000)
   == (1000 * sats) # p)%Q.
Proof.
  unfold Qeq, Qdiv, Qmult, Qinv, inject_Z. cbn [Qnum Qden].
  change (Qnum (Z.pos p * 1 # 1 * 1000)) with (Z.pos p * 1).
  destruct (Z.pos p * 1) eqn:E; try lia.
  cbn [Qnum Qden Qinv]. lia.
Qed.

(** The guard of the fee check, in integers: more than one satoshi, and
    more than one satoshi per hundred bytes. *)
Lemma feeTooHigh_integers sats size :
  feeTooHigh sats size = (1 <? sats) && (Z.of_N size <? 100 * sats).
Proof.
  unfold feeTooHigh. destruct (Z.ltb_spec 1 sats) as [Hs|Hs]; [|reflexivity].
  cbn [andb]. destruct size as [|p].
  - destruct sats as [|q|q]; try lia. reflexivity.
  - unfold JsNumber.ofN, JsNumber.ofZ. cbn [Z.of_N].
    unfold JsNumber.div at 2.
    change (JsNumber.signOf (inject_Z 1000)) with Gt. cbn iota.
    unfold JsNumber.div. rewrite kilobytes_positive.
    unfold JsNumber.gtb. rewrite rate_as_fraction.
    unfold Qcompare. cbn [Qnum Qden inject_Z].
    destruct (Z.compare_spec (1000 * sats * 1) (10 * Z.pos p));
      destruct (Z.ltb_spec (Z.pos p) (100 * sats)); try reflexivity; lia.
Qed.

(** ** The sweep monad *)

Section SweepMonad.

Context `{sdk : Sdk}.

Lemma preserves_ret {A X} (f : SweepState -> X) (a : A) : preserves f (ret a).
Proof. intros st. reflexivity. Qed.

Lemma preserves_throw {A X} (f : SweepState -> X) e :
  preserves f (@throw _ A e).
Proof. intros st. reflexivity. Qed.

Lemma preserves_orThrow {A X} (f : SweepState -> X) (o : option A) e :
  preserves f (orThrow o e).
Proof. intros st. destruct o; reflexivity. Qed.

Lemma preserves_ofSum {A X} (f : SweepState -> X) (r : Error + A) :
  preserves f (ofSum r).
Proof. intros st. reflexivity. Qed.

Lemma preserves_bind {A B X} (f : SweepState -> X) (c : M A) (k : A -> M B) :
  preserves f c -> (forall a, preserves f (k a)) -> preserves f (bind c k).
Proof.
  intros Hc Hk st. unfold bind. specialize (Hc st).
  destruct (c st) as [st' [e|a]]; cbn [fst] in *; [exact Hc|].
  rewrite Hk. exact Hc.
Qed.

Lemma preserves_if {A X} (f : SweepState -> X) (b : bool) (c1 c2 : M A) :
  preserves f c1 -> preserves f c2 -> preserves f (if b then c1 else c2).
Proof. now destruct b. Qed.

Lemma setIsLoading_keeps_registry m :
  preserves registryOf (modify (App.setIsLoading m)).
Proof. intros st. reflexivity. Qed.

Lemma setTxHex_keeps_registry h :
  preserves registryOf (modify (App.setTxHex h)).
Proof. intros st. reflexivity. Qed.

Lemma emit_keeps_registry ev : preserves registryOf (emit ev).
Proof. intros st. reflexivity. Qed.

Lemma emit_keeps_app ev : preserves app (emit ev).
Proof. intros st. reflexivity. Qed.

Lemma modify_keeps_trace g : preserves trace (modify g).
Proof. intros st. reflexivity. Qed.

Lemma clearsOnSuccess_bind {A B} (c : M A) (k : A -> M B) :
  preserves registryOf c -> (forall a, clearsOnSuccess (k a)) ->
  clearsOnSuccess (bind c k).
Proof.
  intros Hc Hk st. unfold bind. specialize (Hc st). unfold registryOf in Hc.
  destruct (c st) as [st' [e|a]]; cbn [fst snd] in *; [exact Hc|].
  rewrite Hk. destruct (snd (k a st')); [exact Hc | reflexivity].
Qed.

Lemma clearsOnSuccess_setResults :
  clearsOnSuccess (modify (App.setResults (fun _ => []))).
Proof. intros st. reflexivity. Qed.

Lemma unlockInputs_keeps_app m ins : preserves app (unlockInputs m ins).
Proof.
  induction ins as [|input rest IH]; cbn [unlockInputs].
  - apply preserves_ret.
  - apply preserves_bind; [apply preserves_ofSum | intros key].
    apply preserves_bind; [apply emit_keeps_app | intros _].
    apply preserves_bind; [exact IH | intros keys]. apply preserves_ret.
Qed.

Lemma unlockInputs_keeps_registry m ins :
  preserves registryOf (unlockInputs m ins).
Proof.
  intros st. unfold registryOf. now rewrite unlockInputs_keeps_app.
Qed.

End SweepMonad.

Create HintDb sweep.

#[local] Hint Resolve preserves_ret preserves_throw preserves_orThrow
  preserves_ofSum preserves_if setIsLoading_keeps_registry
  setTxHex_keeps_registry emit_keeps_registry modify_keeps_trace
  unlockInputs_keeps_registry : sweep.

(** Peels one [bind] off a goal about [preserves] or [clearsOnSuccess]. *)
Ltac sweep_step :=
  first
    [ apply preserves_bind; [solve [auto with sweep] | intros ?]
    | apply clearsOnSuccess_bind; [solve [auto with sweep] | intros ?] ].

Section Sweep.

Context `{sdk : Sdk} `{txsdk : @TxSdk sdk} `{wallet : @Wallet sdk txsdk}
        `{provider : Provider}.

Lemma gatherBeef_keeps_registry entries : forall beef ins,
  preserves registryOf (gatherBeef entries beef ins).
Proof.
  induction entries as [|[txid utxoList] rest IH]; intros beef ins;
    cbn [gatherBeef]; [auto with sweep|].
  repeat sweep_step. apply IH.
Qed.

Lemma gatherBeef_keeps_trace entries : forall beef ins,
  preserves trace (gatherBeef entries beef ins).
Proof.
  induction entries as [|[txid utxoList] rest IH]; intros beef ins;
    cbn [gatherBeef]; [auto with sweep|].
  repeat sweep_step. apply IH.
Qed.

Lemma obtainTransaction_keeps_registry mnemonic pin results :
  preserves registryOf (obtainTransaction mnemonic pin results).
Proof.
  unfold obtainTransaction. do 4 sweep_step.
  apply preserves_bind; [apply gatherBeef_keeps_registry | intros bi].
  repeat sweep_step. auto with sweep.
Qed.

Lemma obtainTransaction_keeps_trace mnemonic pin results :
  preserves trace (obtainTransaction mnemonic pin results).
Proof.
  unfold obtainTransaction. do 4 sweep_step.
  apply preserves_bind; [apply gatherBeef_keeps_trace | intros bi].
  repeat sweep_step. auto with sweep.
Qed.

(** The fee check reads the transaction and nothing else, and writes
    nothing. *)
Lemma feeCheck_run tx st :
  feeCheck tx st =
  (st, match getFee tx with
       | None => inl (Thrown (JsString.lit "getFee"))
       | Some sats =>
         if feeTooHigh sats (binaryLength tx)
         then inl feeTooHighError else inr tt
       end).
Proof.
  unfold feeCheck, bind, orThrow. destruct (getFee tx) as [sats|]; cbn.
  - now destruct (feeTooHigh sats (binaryLength tx)).
  - reflexivity.
Qed.

Lemma signAndSubmit_clears p : clearsOnSuccess (signAndSubmit p).
Proof.
  unfold signAndSubmit. repeat sweep_step. apply clearsOnSuccess_setResults.
Qed.

Lemma sweepBody_clears mnemonic pin results :
  clearsOnSuccess (sweepBody mnemonic pin results).
Proof.
  unfold sweepBody.
  apply clearsOnSuccess_bind;
    [apply obtainTransaction_keeps_registry | intros p].
  apply clearsOnSuccess_bind; [|intros _; apply signAndSubmit_clears].
  intros st. now rewrite feeCheck_run.
Qed.

(** The signing loop does what [resolveAll] says. *)
Lemma unlockInputs_run m ins : forall st,
  unlockInputs m ins st =
  ({| app := app st;
      trace := trace st
               ++ map (fun p => Unlock (fst p) (snd p)) (fst (resolveAll m ins)) |},
   match snd (resolveAll m ins) with
   | Some e => inl e
   | None => inr (map snd (fst (resolveAll m ins)))
   end).
Proof.
  induction ins as [|input rest IH]; intros st;
    cbn [unlockInputs resolveAll].
  - cbn. rewrite app_nil_r. now destruct st.
  - unfold bind, ofSum, emit, ret.
    destruct (resolveKey m input) as [e|key].
    + cbn. rewrite app_nil_r. now destruct st.
    + rewrite IH. cbn [app trace].
      destruct (resolveAll m rest) as [done failure]. cbn [fst snd map].
      rewrite <- app_assoc. cbn [app].
      now destruct failure.
Qed.

(** When the last part of the sweep returns: every input got a key,
    signing returned, and the wallet answered [signAction] with a
    transaction id that is not empty. *)
Lemma signAndSubmit_returns p st :
  snd (signAndSubmit p st) = inr tt <->
  exists spends txid,
    snd (resolveAll (utxosByTxid p) (inputs (candidate p))) = None
    /\ sign (candidate p)
         (map snd (fst (resolveAll (utxosByTxid p) (inputs (candidate p)))))
       = Some spends
    /\ signAction (reference (signableTransaction p)) spends
       = Some (Some txid)
    /\ txid <> [].
Proof.
  unfold signAndSubmit, bind, modify, emit, orThrow, throw, ret.
  rewrite unlockInputs_run. cbn [app trace].
  destruct (snd (resolveAll (utxosByTxid p) (inputs (candidate p))))
    as [e|]; cbn [snd].
  { split; [discriminate | intros (? & ? & ? & _); discriminate]. }
  destruct (sign (candidate p) _) as [spends|]; cbn [snd].
  2:{ split; [discriminate | intros (? & ? & _ & ? & _); discriminate]. }
  destruct (signAction _ spends) as [[[|c txid]|]|] eqn:Hsa; cbn [falsy snd].
  - split; [discriminate|].
    intros (sp & t & _ & [= <-] & Ht & Hne). rewrite Hsa in Ht.
    injection Ht as <-. now contradiction Hne.
  - split; [|reflexivity]. intros _. exists spends, (c :: txid).
    repeat split; auto. discriminate.
  - split; [discriminate|].
    intros (sp & t & _ & [= <-] & Ht & _). rewrite Hsa in Ht. discriminate.
  - split; [discriminate|].
    intros (sp & t & _ & [= <-] & Ht & _). rewrite Hsa in Ht. discriminate.
Qed.

(** What [createIngestTx] does once the wallet has proposed a
    transaction [p] with fee [sats]. *)
Lemma createIngestTx_prepared (s : App.State) st1 p sats :
  isAuthenticated = Some true ->
  App.results s <> [] ->
  obtainTransaction (App.mnemonic s) (App.pin s) (App.results s)
    {| app := s; trace := [] |} = (st1, inr p) ->
  getFee (candidate p) = Some sats ->
  createIngestTx s =
  if feeTooHigh sats (binaryLength (candidate p))
  then ({| app := App.setIsLoading [] (app st1);
           trace := [ConsoleError feeTooHighError] |},
        Caught feeTooHighError)
  else tryCatchFinally (signAndSubmit p) st1.
Proof.
  intros Hauth Hne Hp Hfee. unfold createIngestTx. rewrite Hauth.
  replace (Z.of_nat (length (App.results s)) =? 0) with false
    by (symmetry; apply Z.eqb_neq; destruct (App.results s);
        [contradiction | cbn [length]; lia]).
  pose proof (obtainTransaction_keeps_trace (App.mnemonic s) (App.pin s)
                (App.results s) {| app := s; trace := [] |}) as Ht.
  rewrite Hp in Ht. cbn [fst trace] in Ht.
  unfold tryCatchFinally, sweepBody, bind. rewrite Hp, feeCheck_run, Hfee.
  destruct (feeTooHigh sats (binaryLength (candidate p))); [|reflexivity].
  cbn [app trace]. now rewrite Ht.
Qed.

(** C4: after [createIngestTx] the registry is empty if the [try] block
    ran to its end and is the registry it started with in every other
    case: an early return, or any exception from any step.  The [try]
    block runs to its end exactly on a confirmed broadcast: the wallet
    is connected, the registry is not empty, every step up to the
    wallet's [signAction] succeeds, and [signAction] answers with a
    transaction id that is not empty.  So a confirmed broadcast empties
    the registry, and without one the registry is left as it was. *)
Theorem C4_registry_cleared_only_on_success (s : App.State) :
  App.results (app (fst (createIngestTx s))) =
    match snd (createIngestTx s) with
    | Completed => []
    | Returned | Caught _ => App.results s
    end
  /\ (snd (createIngestTx s) = Completed <-> confirmedBroadcast s)
  /\ (confirmedBroadcast s ->
      App.results (app (fst (createIngestTx s))) = [])
  /\ (~ confirmedBroadcast s ->
      App.results (app (fst (createIngestTx s))) = App.results s).
Proof.
  assert (Hreg :
    App.results (app (fst (createIngestTx s))) =
    match snd (createIngestTx s) with
    | Completed => []
    | Returned | Caught _ => App.results s
    end).
  { unfold createIngestTx.
    destruct isAuthenticated as [[|]|]; cbn [fst snd app]; try reflexivity.
    destruct (Z.of_nat (length (App.results s)) =? 0); cbn [fst snd app];
      [reflexivity|].
    unfold tryCatchFinally.
    pose proof (sweepBody_clears (App.mnemonic s) (App.pin s) (App.results s)
                  {| app := s; trace := [] |}) as Hc.
    cbn [app] in Hc.
    destruct (sweepBody (App.mnemonic s) (App.pin s) (App.results s)
                {| app := s; trace := [] |}) as [st1 [e|[]]];
      cbn [fst snd app trace] in *; exact Hc. }
  assert (Hiff : snd (createIngestTx s) = Completed <-> confirmedBroadcast s).
  { split.
    - unfold confirmedBroadcast, createIngestTx.
      destruct isAuthenticated as [[|]|]; cbn [snd]; try discriminate.
      destruct (Z.of_nat (length (App.results s)) =? 0) eqn:Hlen; cbn [snd];
        [discriminate|].
      unfold tryCatchFinally, sweepBody, bind.
      destruct (obtainTransaction _ _ _ _) as [st1 [e|p]]; [discriminate|].
      rewrite feeCheck_run.
      destruct (getFee (candidate p)) as [sats|] eqn:Hfee; [|discriminate].
      destruct (feeTooHigh sats (binaryLength (candidate p))) eqn:Hgate;
        [discriminate|].
      destruct (signAndSubmit p st1) as [st2 [e|[]]] eqn:Hrun; [discriminate|].
      intros _. split; [reflexivity|]. split.
      { intros E. rewrite E in Hlen. discriminate. }
      assert (Hret : snd (signAndSubmit p st1) = inr tt) by now rewrite Hrun.
      apply signAndSubmit_returns in Hret.
      destruct Hret as (spends & txid & Hkeys & Hsign & Hsent & Htxid).
      exists st1, p, sats, spends, txid. repeat split; auto.
    - intros (Hauth & Hne & st1 & p & sats & spends & txid
              & Hp & Hfee & Hgate & Hkeys & Hsign & Hsent & Htxid).
      rewrite (createIngestTx_prepared s st1 p sats Hauth Hne Hp Hfee), Hgate.
      assert (Hret : snd (signAndSubmit p st1) = inr tt).
      { apply signAndSubmit_returns. now exists spends, txid. }
      unfold tryCatchFinally.
      destruct (signAndSubmit p st1) as [st2 [e|[]]];
        [discriminate | reflexivity]. }
  split; [exact Hreg|]. split; [exact Hiff|]. split.
  - intros Hc. apply Hiff in Hc. now rewrite Hreg, Hc.
  - intros Hn. rewrite Hreg.
    destruct (snd (createIngestTx s)) eqn:Ho; try reflexivity.
    exfalso. apply Hn. now apply Hiff.
Qed.

Lemma resolveKey_not_fee m input : resolveKey m input <> inl feeTooHighError.
Proof.
  unfold resolveKey, feeTooHighError.
  destruct (sourceTransaction input) as [txid|]; [|discriminate].
  destruct (JsObject.get txid m) as [l|]; [|discriminate].
  destruct (find _ l); [discriminate|].
  intros E. cbn in E. discriminate.
Qed.

Lemma unlockInputs_not_fee m ins : forall st,
  snd (unlockInputs m ins st) <> inl feeTooHighError.
Proof.
  induction ins as [|input rest IH]; intros st; cbn [unlockInputs];
    [discriminate|].
  unfold bind, ofSum, emit, ret.
  destruct (resolveKey m input) as [e|key] eqn:Hk; cbn [snd].
  - intros [= ->]. exact (resolveKey_not_fee m input Hk).
  - specialize (IH {| app := app st; trace := trace st ++ [Unlock input key] |}).
    destruct (unlockInputs m rest _) as [st1 [e|keys]]; cbn [snd] in *;
      [exact IH | discriminate].
Qed.

Lemma signAndSubmit_not_fee p st :
  snd (signAndSubmit p st) <> inl feeTooHighError.
Proof.
  unfold signAndSubmit, bind, modify, emit, orThrow, throw, ret.
  pose proof (unlockInputs_not_fee (utxosByTxid p) (inputs (candidate p))
    {| app := App.setIsLoading (JsString.lit "Signing Tx") (app st);
       trace := trace st |}) as Hu.
  destruct (unlockInputs _ _ _) as [st1 [e|keys]]; cbn [snd] in *;
    [intros [= ->]; now apply Hu|].
  destruct (sign (candidate p) keys) as [spends|]; [|discriminate].
  destruct (signAction _ spends) as [signed|]; [|discriminate].
  destruct (falsy signed); discriminate.
Qed.

Lemma rate_above_ten sats size :
  (0 < size)%N ->
  (Z.of_N size < 100 * sats <-> (10 < satsPerKilobyte sats size)%Q).
Proof.
  intros Hsize. destruct size as [|p]; [lia|]. unfold satsPerKilobyte.
  cbn [Z.of_N]. rewrite rate_as_fraction. unfold Qlt.
  cbn [Qnum Qden inject_Z]. lia.
Qed.

(** Rounding does not move the boundary: on fees up to 12 satoshis and
    sizes up to 1300 bytes, and at the largest size an array can have,
    the binary64 computation takes the same branch as the exact one. *)
Example fee_check_binary64_small : binary64Agrees 14 1300 = true.
Proof. vm_compute. reflexivity. Qed.

Example fee_check_binary64_large :
  feeTooHighBinary64 42949673 4294967295 = feeTooHigh 42949673 4294967295
  /\ feeTooHighBinary64 42949672 4294967295 = feeTooHigh 42949672 4294967295
  /\ feeTooHighBinary64 2 200 = false
  /\ feeTooHighBinary64 2 199 = true.
Proof. rewrite !feeTooHigh_integers. vm_compute. auto. Qed.

(** C2: once the wallet has proposed a transaction, with fee [sats]
    (inputs minus outputs) and [size] bytes, [createIngestTx] stops with
    'Fee too high, aborting' exactly when the fee is above 1 satoshi and
    above 10 satoshis per 1000 bytes.  It then has attached no key,
    signed nothing and not called the wallet's [signAction]: the only
    event is the logged error.  Otherwise it goes on to signing.  So a
    fee of 2 satoshis on 200 bytes (10.0 sats/kb) is not stopped, and a
    fee of at most 1 satoshi is not stopped at any size. *)
Theorem C2_fee_gate (s : App.State) (st1 : SweepState) (p : Prepared)
    (sats : Z) :
  isAuthenticated = Some true ->
  App.results s <> [] ->
  obtainTransaction (App.mnemonic s) (App.pin s) (App.results s)
    {| app := s; trace := [] |} = (st1, inr p) ->
  getFee (candidate p) = Some sats ->
  feeTooHigh sats (binaryLength (candidate p)) =
    (1 <? sats) && (Z.of_N (binaryLength (candidate p)) <? 100 * sats)
  /\ ((0 < binaryLength (candidate p))%N ->
      (feeTooHigh sats (binaryLength (candidate p)) = true <->
       1 < sats
       /\ (10 < satsPerKilobyte sats (binaryLength (candidate p)))%Q))
  /\ createIngestTx s =
     (if feeTooHigh sats (binaryLength (candidate p))
      then ({| app := App.setIsLoading [] (app st1);
               trace := [ConsoleError feeTooHighError] |},
            Caught feeTooHighError)
      else tryCatchFinally (signAndSubmit p) st1)
  /\ (snd (createIngestTx s) = Caught feeTooHighError <->
      feeTooHigh sats (binaryLength (candidate p)) = true)
  /\ (feeTooHigh sats (binaryLength (candidate p)) = true ->
      signingEvents (trace (fst (createIngestTx s))) = []
      /\ App.results (app (fst (createIngestTx s))) = App.results s)
  /\ (sats = 2 -> binaryLength (candidate p) = 200%N ->
      feeTooHigh sats (binaryLength (candidate p)) = false)
  /\ (sats <= 1 -> feeTooHigh sats (binaryLength (candidate p)) = false).
Proof.
  intros Hauth Hne Hp Hfee.
  pose proof (createIngestTx_prepared s st1 p sats Hauth Hne Hp Hfee) as Hrun.
  split; [apply feeTooHigh_integers|]. split.
  { intros Hsize. rewrite feeTooHigh_integers, andb_true_iff.
    rewrite Z.ltb_lt, Z.ltb_lt. now rewrite (rate_above_ten sats _ Hsize). }
  split; [exact Hrun|]. split; [|split; [|split]].
  - rewrite Hrun.
    destruct (feeTooHigh sats (binaryLength (candidate p)));
      [split; reflexivity|].
    split; [|discriminate]. unfold tryCatchFinally.
    pose proof (signAndSubmit_not_fee p st1) as Hnot.
    destruct (signAndSubmit p st1) as [st2 [e|[]]]; cbn [snd] in *;
      [|discriminate].
    intros [= ->]. now contradiction Hnot.
  - intros Hgate. rewrite Hrun, Hgate. cbn [fst trace app]. split;
      [reflexivity|].
    pose proof (obtainTransaction_keeps_registry (App.mnemonic s) (App.pin s)
                  (App.results s) {| app := s; trace := [] |}) as Hreg.
    rewrite Hp in Hreg. exact Hreg.
  - intros -> Hsize. rewrite Hsize. now rewrite feeTooHigh_integers.
  - intros Hs. rewrite feeTooHigh_integers.
    replace (1 <? sats) with false by (symmetry; apply Z.ltb_ge; lia).
    reflexivity.
Qed.

End Sweep.

(** ** Key-for-input map *)

Section KeyMap.

Context `{sdk : Sdk}.

Implicit Types (m : JsObject.t (list KeyedUtxo)) (k txid : jsstring).

Lemma get_set_same {V} k (v : V) (o : JsObject.t V) :
  JsObject.get k (JsObject.set k v o) = Some v.
Proof.
  induction o as [|[k' v'] o IH]; cbn [JsObject.set JsObject.get].
  - now rewrite JsString_eqb_refl.
  - destruct (JsString.eqb k' k) eqn:E; cbn [JsObject.get]; rewrite E;
      [reflexivity | exact IH].
Qed.

Lemma get_set_other {V} k k' (v : V) (o : JsObject.t V) :
  k <> k' -> JsObject.get k' (JsObject.set k v o) = JsObject.get k' o.
Proof.
  intros Hne. induction o as [|[k0 v0] o IH]; cbn [JsObject.set JsObject.get].
  - replace (JsString.eqb k k') with false; [reflexivity|].
    symmetry. now apply JsString_eqb_neq.
  - destruct (JsString.eqb k0 k) eqn:E; cbn [JsObject.get].
    + apply JsString_eqb_eq in E. subst k0.
      replace (JsString.eqb k k') with false; [reflexivity|].
      symmetry. now apply JsString_eqb_neq.
    + now rewrite IH.
Qed.


Lemma pushUtxo_get key utxo m txid :
  JsObject.get txid (pushUtxo key utxo m) =
  if JsString.eqb (tx_hash utxo) txid
  then Some (bucket m txid ++ [keyedUtxoOf key utxo])
  else JsObject.get txid m.
Proof.
  unfold pushUtxo, bucket.
  destruct (JsString.eqb (tx_hash utxo) txid) eqn:E.
  - apply JsString_eqb_eq in E. subst txid.
    destruct (JsObject.get (tx_hash utxo) m) as [l|] eqn:G.
    + rewrite G. apply get_set_same.
    + rewrite get_set_same. rewrite get_set_same. reflexivity.
  - apply JsString_eqb_neq in E.
    destruct (JsObject.get (tx_hash utxo) m) as [l|] eqn:G.
    + rewrite G. now apply get_set_other.
    + rewrite get_set_same. now rewrite !get_set_other.
Qed.

Lemma pushUtxo_noEmpty key utxo m :
  noEmptyBucket m -> noEmptyBucket (pushUtxo key utxo m).
Proof.
  intros Hne txid. rewrite pushUtxo_get.
  destruct (JsString.eqb (tx_hash utxo) txid); [|apply Hne].
  intros [= E]. now destruct (bucket m txid).
Qed.

Lemma pushUtxo_bucket key utxo m txid :
  bucket (pushUtxo key utxo m) txid =
  bucket m txid ++
  (if JsString.eqb (tx_hash utxo) txid then [keyedUtxoOf key utxo] else []).
Proof.
  unfold bucket at 1. rewrite pushUtxo_get.
  destruct (JsString.eqb (tx_hash utxo) txid); [reflexivity|].
  fold (bucket m txid). now rewrite app_nil_r.
Qed.

Lemma pushAll_bucket key us : forall m txid,
  bucket (fold_left (fun m utxo => pushUtxo key utxo m) us m) txid =
  bucket m txid ++
  map (keyedUtxoOf key)
      (filter (fun utxo => JsString.eqb (tx_hash utxo) txid) us).
Proof.
  induction us as [|u us IH]; intros m txid; cbn [fold_left filter].
  - now rewrite app_nil_r.
  - rewrite IH, pushUtxo_bucket.
    destruct (JsString.eqb (tx_hash u) txid); cbn [map].
    + now rewrite <- app_assoc.
    + now rewrite app_nil_r.
Qed.

Lemma pushAll_noEmpty key us : forall m,
  noEmptyBucket m ->
  noEmptyBucket (fold_left (fun m utxo => pushUtxo key utxo m) us m).
Proof.
  induction us as [|u us IH]; intros m Hne; cbn [fold_left]; [exact Hne|].
  apply IH. now apply pushUtxo_noEmpty.
Qed.

Lemma buildKeyMapFrom_spec seed rs : forall m,
  noEmptyBucket m ->
  match buildKeyMapFrom seed rs m with
  | inr m' =>
    forallb (fun res => isSome (entryKey seed res)) rs = true
    /\ noEmptyBucket m'
    /\ forall txid, bucket m' txid = bucket m txid ++ expectedBucket seed rs txid
  | inl _ => forallb (fun res => isSome (entryKey seed res)) rs = false
  end.
Proof.
  induction rs as [|res rs IH]; intros m Hne;
    cbn [buildKeyMapFrom forallb expectedBucket].
  - split; [reflexivity|]. split; [exact Hne|]. intros txid.
    now rewrite app_nil_r.
  - unfold addEntry, entryKey.
    destruct (derive seed (fullPath (pathPrefix res) (index res))) as [key|];
      [|reflexivity].
    cbn [isSome andb].
    specialize (IH (fold_left (fun m utxo => pushUtxo key utxo m)
                              (result (utxos res)) m)
                   (pushAll_noEmpty key _ m Hne)).
    destruct (buildKeyMapFrom seed rs _) as [e|m']; [exact IH|].
    destruct IH as (Hall & Hne' & Hb). split; [exact Hall|].
    split; [exact Hne'|]. intros txid.
    now rewrite Hb, pushAll_bucket, <- app_assoc.
Qed.

End KeyMap.

(** ** The sweep does not look at the prefix field of the form *)

Section UiPrefix.

Context `{sdk : Sdk} `{txsdk : @TxSdk sdk} `{wallet : @Wallet sdk txsdk}
        `{provider : Provider}.
















(** Which key an input receives: that of a record stored under the
    input's own source transaction id whose [vout] is the input's output
    index, and the first such record. *)
Lemma resolveKey_two_factor m input key :
  resolveKey m input = inr key ->
  exists txid l u,
    sourceTransaction input = Some txid
    /\ JsObject.get txid m = Some l
    /\ find (fun utxo => vout utxo =? sourceOutputIndex input) l = Some u
    /\ In u l /\ vout u = sourceOutputIndex input /\ privKey u = key.
Proof.
  unfold resolveKey.
  destruct (sourceTransaction input) as [txid|] eqn:S; [|discriminate].
  destruct (JsObject.get txid m) as [l|] eqn:G; [|discriminate].
  destruct (find _ l) as [u|] eqn:F; [|discriminate].
  intros [= <-]. exists txid, l, u.
  destruct (find_some _ _ F) as [Hin Hv]. apply Z.eqb_eq in Hv.
  repeat split; auto.
Qed.

(** A source transaction the map knows, but not at this output index:
    the error names the transaction id and the index. *)
Lemma resolveKey_missing_output m input txid l :
  sourceTransaction input = Some txid ->
  JsObject.get txid m = Some l ->
  existsb (fun utxo => vout utxo =? sourceOutputIndex input) l = false ->
  resolveKey m input =
  inl (JsError (JsString.lit "Failed to find private key for input: "
                ++ txid ++ JsString.lit "."
                ++ JsString.ofNumber (sourceOutputIndex input))).
Proof.
  intros Hs Hg Hex. unfold resolveKey. rewrite Hs, Hg.
  destruct (find _ l) as [u|] eqn:F; [|reflexivity].
  destruct (find_some _ _ F) as [Hin Hv].
  assert (existsb (fun utxo => vout utxo =? sourceOutputIndex input) l = true)
    by (apply existsb_exists; now exists u).
  congruence.
Qed.

(** A source transaction the map does not know at all: the lookup
    [utxosByTxid[txid]] is [undefined] and calling [.find] on it raises a
    [TypeError] that names neither the transaction nor the index. *)
Lemma resolveKey_unknown_transaction m input txid :
  sourceTransaction input = Some txid ->
  JsObject.get txid m = None ->
  resolveKey m input =
  inl (TypeError
         (JsString.lit "Cannot read properties of undefined (reading 'find')")).
Proof. intros Hs Hg. unfold resolveKey. now rewrite Hs, Hg. Qed.

End UiPrefix.

(** C3 at the failing input: the registry holds one output of
    transaction ["aa"]; the wallet proposes a transaction that spends it
    and also an output of a transaction ["ff"] that is not in the
    registry.  The first input gets its key; for the second the sweep
    stops with the runtime's [TypeError], whose message names neither
    ["ff"] nor the output index.  Nothing is signed and the registry is
    kept. *)
Lemma C3_unknown_transaction_raises_TypeError :
  @createIngestTx Sample.sdk (Sample.txSdk Sample.txForeign)
    (Sample.wallet Sample.txForeign) (Sample.provider [])
    (Sample.sessionWith Sample.funded) =
  ({| app := Sample.sessionWith Sample.funded;
      trace :=
        [ @Unlock Sample.sdk (Sample.input "aa" 0 500)
            (JsString.lit "abc:m/0");
          @ConsoleError Sample.sdk
            (TypeError (JsString.lit
               "Cannot read properties of undefined (reading 'find')")) ] |},
   Caught (TypeError (JsString.lit
     "Cannot read properties of undefined (reading 'find')"))).
Proof. vm_compute. reflexivity. Qed.

Example mixed_prefix_key_map :
  @buildKeyMap Sample.sdk Sample.seed Sample.mixed =
  inr [ (JsString.lit "aa",
         [ @Build_KeyedUtxo Sample.sdk 0 (JsString.lit "abc:m/44'/0/0/3") 500;
           @Build_KeyedUtxo Sample.sdk 1 (JsString.lit "abc:m/0'/8") 250 ]);
        (JsString.lit "bb",
         [ @Build_KeyedUtxo Sample.sdk 1 (JsString.lit "abc:m/44'/0/0/3") 20 ]) ].
Proof. vm_compute. reflexivity. Qed.

Example sweep_at_fee_limit_completes :
  snd (@createIngestTx Sample.sdk (Sample.txSdk Sample.txAtLimit)
         (Sample.wallet Sample.txAtLimit) (Sample.provider [])
         (Sample.sessionWith Sample.funded)) = Completed.
Proof. vm_compute. reflexivity. Qed.

Example sweep_above_fee_limit_aborts :
  @createIngestTx Sample.sdk (Sample.txSdk Sample.txAboveLimit)
    (Sample.wallet Sample.txAboveLimit) (Sample.provider [])
    (Sample.sessionWith Sample.funded) =
  ({| app := Sample.sessionWith Sample.funded;
      trace := [ @ConsoleError Sample.sdk feeTooHighError ] |},
   Caught feeTooHighError).
Proof. vm_compute. reflexivity. Qed.

(** The funded address swept with a fee of 2 satoshis on 199 bytes: the
    wallet proposes the transaction, the fee is above 10 sats/kb, and the
    sweep stops with the logged error as its only event. *)
Lemma C2_witness :
  exists st1 p,
    @obtainTransaction Sample.sdk (Sample.txSdk Sample.txAboveLimit)
      (Sample.wallet Sample.txAboveLimit) (Sample.provider [])
      (App.mnemonic (Sample.sessionWith Sample.funded))
      (App.pin (Sample.sessionWith Sample.funded))
      (App.results (Sample.sessionWith Sample.funded))
      {| app := Sample.sessionWith Sample.funded; trace := [] |}
    = (st1, inr p)
    /\ getFee (candidate p) = Some 2
    /\ feeTooHigh 2 (binaryLength (candidate p)) =
       (1 <? 2) && (Z.of_N (binaryLength (candidate p)) <? 100 * 2)
    /\ ((0 < binaryLength (candidate p))%N ->
        (feeTooHigh 2 (binaryLength (candidate p)) = true <->
         1 < 2
         /\ (10 < satsPerKilobyte 2 (binaryLength (candidate p)))%Q))
    /\ @createIngestTx Sample.sdk (Sample.txSdk Sample.txAboveLimit)
         (Sample.wallet Sample.txAboveLimit) (Sample.provider [])
         (Sample.sessionWith Sample.funded) =
       (if feeTooHigh 2 (binaryLength (candidate p))
        then ({| app := App.setIsLoading [] (app st1);
                 trace := [ConsoleError feeTooHighError] |},
              Caught feeTooHighError)
        else @tryCatchFinally Sample.sdk
               (@signAndSubmit Sample.sdk (Sample.txSdk Sample.txAboveLimit)
                  (Sample.wallet Sample.txAboveLimit) p) st1)
    /\ (snd (@createIngestTx Sample.sdk (Sample.txSdk Sample.txAboveLimit)
               (Sample.wallet Sample.txAboveLimit) (Sample.provider [])
               (Sample.sessionWith Sample.funded)) = Caught feeTooHighError <->
        feeTooHigh 2 (binaryLength (candidate p)) = true)
    /\ (feeTooHigh 2 (binaryLength (candidate p)) = true ->
        signingEvents
          (trace (fst (@createIngestTx Sample.sdk
                         (Sample.txSdk Sample.txAboveLimit)
                         (Sample.wallet Sample.txAboveLimit)
                         (Sample.provider [])
                         (Sample.sessionWith Sample.funded)))) = []
        /\ App.results
             (app (fst (@createIngestTx Sample.sdk
                          (Sample.txSdk Sample.txAboveLimit)
                          (Sample.wallet Sample.txAboveLimit)
                          (Sample.provider [])
                          (Sample.sessionWith Sample.funded))))
           = App.results (Sample.sessionWith Sample.funded))
    /\ (2 = 2 -> binaryLength (candidate p) = 200%N ->
        feeTooHigh 2 (binaryLength (candidate p)) = false)
    /\ (2 <= 1 -> feeTooHigh 2 (binaryLength (candidate p)) = false).
Proof.
  do 2 eexists. split; [vm_compute; reflexivity|].
  split; [vm_compute; reflexivity|].
  apply (@C2_fee_gate Sample.sdk (Sample.txSdk Sample.txAboveLimit)
           (Sample.wallet Sample.txAboveLimit) (Sample.provider [])
           (Sample.sessionWith Sample.funded)).
  - reflexivity.
  - discriminate.
  - vm_compute. reflexivity.
  - vm_compute. reflexivity.
Defined.

(** The funded address swept with a fee of 2 satoshis on 200 bytes and a
    wallet that reports the transaction id ["txid"]: a confirmed
    broadcast, and the registry is empty afterwards. *)
Lemma C4_witness :
  @confirmedBroadcast Sample.sdk (Sample.txSdk Sample.txAtLimit)
    (Sample.wallet Sample.txAtLimit) (Sample.provider [])
    (Sample.sessionWith Sample.funded)
  /\ App.results
       (app (fst (@createIngestTx Sample.sdk (Sample.txSdk Sample.txAtLimit)
                    (Sample.wallet Sample.txAtLimit) (Sample.provider [])
                    (Sample.sessionWith Sample.funded)))) = [].
Proof.
  assert (Hc : @confirmedBroadcast Sample.sdk (Sample.txSdk Sample.txAtLimit)
                 (Sample.wallet Sample.txAtLimit) (Sample.provider [])
                 (Sample.sessionWith Sample.funded)).
  { split; [reflexivity|]. split; [discriminate|].
    do 5 eexists.
    split; [vm_compute; reflexivity|].
    split; [vm_compute; reflexivity|].
    split; [vm_compute; reflexivity|].
    split; [vm_compute; reflexivity|].
    split; [vm_compute; reflexivity|].
    split; [vm_compute; reflexivity | discriminate]. }
  split; [exact Hc|].
  exact (proj1 (proj2 (proj2
           (@C4_registry_cleared_only_on_success Sample.sdk
              (Sample.txSdk Sample.txAtLimit) (Sample.wallet Sample.txAtLimit)
              (Sample.provider []) (Sample.sessionWith Sample.funded)))) Hc).
Defined.


(** ** Request queue *)

Section Queue.

Import Dispatcher.

Lemma initial_invariant now : invariant (initial now).
Proof.
  unfold invariant, history, oneWorker, lastDispatchRecorded. cbn.
  repeat split; auto.
Qed.

(** Issuing the head of the queue, when that is at least
    [MIN_INTERVAL] after the previous issue. *)
Lemma afterWait_invariant st :
  history st -> workers st = [] -> isProcessing st = true ->
  requestQueue st <> [] ->
  (forall r t rest, dispatched st = (r, t) :: rest ->
                    MIN_INTERVAL <= clock st - t) ->
  invariant (suspend (afterWait st)).
Proof.
  intros (Hfifo & Htick & Hsp & Hlast) Hw Hp Hq Hgap.
  unfold afterWait. destruct (requestQueue st) as [|item rest] eqn:Q;
    [congruence|].
  unfold suspend, invariant, history, oneWorker, lastDispatchRecorded.
  cbn [requestQueue isProcessing lastRequestTime clock workers enqueued
       dispatched settled]. rewrite Hw.
  split; [|right; right; exists item; auto].
  split; [|split; [exact Htick|split; [|reflexivity]]].
  - rewrite Hfifo. cbn [map fst rev]. now rewrite <- app_assoc.
  - cbn [spaced]. split; [|exact Hsp].
    destruct (dispatched st) as [|[r t] d] eqn:D; [exact I|].
    apply (Hgap r t d eq_refl).
Qed.

Lemma loopHead_invariant st :
  history st -> workers st = [] -> isProcessing st = true ->
  invariant (suspend (loopHead st)).
Proof.
  intros Hh Hw Hp. unfold loopHead.
  destruct (0 <? Z.of_nat (length (requestQueue st))) eqn:Hlen.
  - assert (Hq : requestQueue st <> []).
    { intros E. rewrite E in Hlen. discriminate. }
    destruct (Z.ltb_spec (clock st - lastRequestTime st) MIN_INTERVAL)
      as [Hsoon|Hlate].
    + unfold suspend, invariant.
      split; [exact Hh|]. right. left.
      exists (clock st + (MIN_INTERVAL - (clock st - lastRequestTime st))).
      cbn [requestQueue isProcessing lastRequestTime clock workers].
      rewrite Hw. repeat split; auto. lia.
    + apply afterWait_invariant; auto.
      intros r t rest D. destruct Hh as (_ & _ & _ & Hlast).
      unfold lastDispatchRecorded in Hlast. rewrite D in Hlast. lia.
  - unfold suspend, invariant, history, oneWorker, lastDispatchRecorded.
    cbn [requestQueue isProcessing lastRequestTime clock workers enqueued
         dispatched settled].
    split; [exact Hh | left; auto].
Qed.

Lemma only_worker {A} (w : A) k x :
  nth_error [w] k = Some x -> k = O /\ x = w.
Proof.
  destruct k as [|k]; cbn; [intros [= <-]; auto|].
  destruct k; discriminate.
Qed.

Lemma step_invariant l st st' :
  invariant st -> step l st = Some st' -> invariant st'.
Proof.
  intros [Hh Hw] Hstep. destruct l as [u|dt|k|k ok]; cbn [step] in Hstep.
  - (* a caller enqueues *)
    injection Hstep as <-. unfold queuedFetch.
    set (item := {| url := u; ticket := length (enqueued st) |}).
    set (st1 := {| requestQueue := requestQueue st ++ [item];
                   isProcessing := isProcessing st;
                   lastRequestTime := lastRequestTime st;
                   clock := clock st; workers := workers st;
                   enqueued := enqueued st ++ [item];
                   dispatched := dispatched st; settled := settled st |}).
    assert (Hh1 : history st1).
    { destruct Hh as (Hfifo & Htick & Hsp & Hlast).
      unfold history, lastDispatchRecorded. subst st1.
      cbn [requestQueue enqueued dispatched lastRequestTime].
      repeat split; auto.
      - now rewrite Hfifo, <- app_assoc.
      - rewrite map_app, Htick, length_app, seq_app. cbn [map ticket item].
        reflexivity. }
    destruct Hw as [[Hw Hp]|[(due & Hw & Hp & Hq & Hdue)|(it & Hw & Hp)]];
      cbn [isProcessing st1]; rewrite Hp; cbn [negb].
    + unfold processQueue. apply loopHead_invariant; auto.
    + split; [exact Hh1|]. right. left. exists due. subst st1.
      cbn [requestQueue isProcessing lastRequestTime workers].
      repeat split; auto. now destruct (requestQueue st).
    + split; [exact Hh1|]. right. right. exists it. subst st1.
      cbn [isProcessing workers]. auto.
  - (* time passes *)
    injection Hstep as <-. split; [exact Hh | exact Hw].
  - (* a timer fires *)
    destruct (nth_error (workers st) k) as [[due|item]|] eqn:Hk;
      try discriminate.
    destruct (Z.leb_spec due (clock st)) as [Hdue|]; [|discriminate].
    injection Hstep as <-.
    destruct Hw as [[Hw Hp]|[(due' & Hw & Hp & Hq & Hd)|(it & Hw & Hp)]];
      rewrite Hw in Hk.
    + destruct k; discriminate.
    + apply only_worker in Hk. destruct Hk as [-> [= <-]].
      rewrite Hw. cbn [removeNth].
      apply afterWait_invariant; auto.
      intros r t rest D. destruct Hh as (_ & _ & _ & Hlast).
      unfold lastDispatchRecorded in Hlast. cbn [withWorkers dispatched] in D.
      rewrite D in Hlast. cbn [withWorkers clock]. lia.
    + apply only_worker in Hk. destruct Hk as [_ [=]].
  - (* a fetch settles *)
    destruct (nth_error (workers st) k) as [[due|item]|] eqn:Hk;
      try discriminate.
    injection Hstep as <-.
    destruct Hw as [[Hw Hp]|[(due' & Hw & Hp & Hq & Hd)|(it & Hw & Hp)]];
      rewrite Hw in Hk.
    + destruct k; discriminate.
    + apply only_worker in Hk. destruct Hk as [_ [=]].
    + apply only_worker in Hk. destruct Hk as [-> [= <-]].
      rewrite Hw. cbn [removeNth].
      apply loopHead_invariant; auto.
Qed.

Lemma run_invariant ls : forall st st',
  invariant st -> run ls st = Some st' -> invariant st'.
Proof.
  induction ls as [|l ls IH]; intros st st' Hinv Hrun; cbn [run] in Hrun.
  - now injection Hrun as <-.
  - destruct (step l st) as [st1|] eqn:Hstep; [|discriminate].
    apply (IH st1); [|exact Hrun]. now apply (step_invariant l st).
Qed.

End Queue.

(** C9: however calls of [queuedFetch], the passing of time, timers and
    completing fetches interleave, the requests issued so far are, in
    the order of issue, the first requests enqueued, in the order of
    enqueueing, and the others are still queued in that order; every
    request carries its own ticket; two consecutive issues are at least
    [MIN_INTERVAL] = 334 ms apart; and at most one call of [processQueue]
    is in progress. *)
Theorem C9_fifo_and_minimum_interval (now : Z) (ls : list Dispatcher.Label)
    (st : Dispatcher.State) :
  Dispatcher.run ls (Dispatcher.initial now) = Some st ->
  rev (map fst (Dispatcher.dispatched st)) ++ Dispatcher.requestQueue st
    = Dispatcher.enqueued st
  /\ map Dispatcher.ticket (Dispatcher.enqueued st)
     = seq 0 (length (Dispatcher.enqueued st))
  /\ Dispatcher.spaced (Dispatcher.dispatched st)
  /\ (length (Dispatcher.workers st) <= 1)%nat
  /\ Dispatcher.MIN_INTERVAL = 334.
Proof.
  intros Hrun.
  destruct (run_invariant ls _ _ (initial_invariant now) Hrun)
    as [(Hfifo & Htick & Hsp & _) Hw].
  repeat split; auto.
  destruct Hw as [[-> _]|[(due & -> & _)|(it & -> & _)]]; cbn; lia.
Qed.

(** The sample run is a run, and ends with two issues 334 ms apart. *)
Lemma C9_witness :
  Dispatcher.run Dispatcher.sampleRun (Dispatcher.initial 1000)
    = Some Dispatcher.sampleFinal
  /\ rev (map fst (Dispatcher.dispatched Dispatcher.sampleFinal))
     ++ Dispatcher.requestQueue Dispatcher.sampleFinal
     = Dispatcher.enqueued Dispatcher.sampleFinal
  /\ map Dispatcher.ticket (Dispatcher.enqueued Dispatcher.sampleFinal)
     = seq 0 (length (Dispatcher.enqueued Dispatcher.sampleFinal))
  /\ Dispatcher.spaced (Dispatcher.dispatched Dispatcher.sampleFinal)
  /\ (length (Dispatcher.workers Dispatcher.sampleFinal) <= 1)%nat
  /\ Dispatcher.MIN_INTERVAL = 334.
Proof.
  split; [reflexivity|].
  exact (C9_fifo_and_minimum_interval 1000 Dispatcher.sampleRun
           Dispatcher.sampleFinal eq_refl).
Defined.

(** ** Rescans *)

(** C7: a call of [generateAddresses] whose scan ends, whatever the
    prefix, offset and gap limit, returns with the registry equal to the
    merge of the prior registry with the entries that scan recorded.
    That merge is a union by address: an address is listed afterwards
    exactly when it was listed before or was recorded by the scan; every
    address of the prior registry is still listed; and looking an
    address up afterwards gives the prior entry whenever there was one,
    the scan's entry only otherwise.  Start offset, gap limit and cursor
    are exact integers and the reported amounts add up exactly. *)
Theorem C7_rescan_unions_by_address `{sdk : Sdk} `{provider : Provider}
    (fuel : nat) (s : App.State) (seed : Seed)
    (st : ScanState) (exit : LoopExit) :
  toSeed (App.mnemonic s) (App.pin s) = Some seed ->
  fromSeed seed = true ->
  exactInteger (App.startOffset s) ->
  exactInteger (App.consecutiveUnusedGap s) ->
  exactSums ->
  scanLoop fuel seed (App.pathPrefix s) (App.consecutiveUnusedGap s)
    (scanState (App.startOffset s) 0 []) = Some (st, exit) ->
  exactInteger (sc_index st) ->
  exists s',
    generateAddresses fuel s = Some s'
    /\ App.results s' = mergeResults (App.results s) (sc_usedResults st)
    /\ (forall a, In a (map address (App.results s')) <->
                  In a (map address (App.results s))
                  \/ In a (map address (sc_usedResults st)))
    /\ (forall a, In a (map address (App.results s)) ->
                  In a (map address (App.results s')))
    /\ (forall a, findByAddress a (App.results s') =
                  orElse (findByAddress a (App.results s))
                         (findByAddress a (sc_usedResults st)))
    /\ (forall a r, findByAddress a (App.results s) = Some r ->
                    findByAddress a (App.results s') = Some r).
Proof.
  intros Hseed Hmaster _ _ _ Hscan _. unfold generateAddresses.
  cbn [App.mnemonic App.pin App.setIsLoading App.startOffset App.pathPrefix
       App.consecutiveUnusedGap].
  rewrite Hseed, Hmaster. unfold scanState in Hscan. rewrite Hscan.
  eexists. split; [reflexivity|].
  cbn [App.results App.setIsLoading App.setTxHex App.setResults].
  destruct (mergeResults_union (App.results s) (sc_usedResults st))
    as [Hmem Hfind].
  split; [reflexivity|]. split; [exact Hmem|]. split; [|split].
  - intros a Ha. apply Hmem. now left.
  - exact Hfind.
  - intros a r Ha. now rewrite Hfind, Ha.
Qed.

(** A rescan from index 0 with gap limit 5 over a registry that already
    holds the address at index 0: the earlier entry stays, and the
    address at index 3 is added. *)
Lemma C7_witness :
  exists st exit s',
    @scanLoop Sample.sdk (Sample.provider Sample.usage03) 10 Sample.seed
      (App.pathPrefix (Sample.sessionWith Ledger.prior))
      (App.consecutiveUnusedGap (Sample.sessionWith Ledger.prior))
      (scanState (App.startOffset (Sample.sessionWith Ledger.prior)) 0 [])
    = Some (st, exit)
    /\ @generateAddresses Sample.sdk (Sample.provider Sample.usage03) 10
         (Sample.sessionWith Ledger.prior) = Some s'
    /\ App.results s' =
       mergeResults (App.results (Sample.sessionWith Ledger.prior))
                    (sc_usedResults st)
    /\ (forall a, In a (map address (App.results s')) <->
                  In a (map address
                          (App.results (Sample.sessionWith Ledger.prior)))
                  \/ In a (map address (sc_usedResults st)))
    /\ (forall a, In a (map address
                          (App.results (Sample.sessionWith Ledger.prior))) ->
                  In a (map address (App.results s')))
    /\ (forall a, findByAddress a (App.results s') =
                  orElse (findByAddress a
                            (App.results (Sample.sessionWith Ledger.prior)))
                         (findByAddress a (sc_usedResults st)))
    /\ (forall a r,
          findByAddress a (App.results (Sample.sessionWith Ledger.prior))
          = Some r ->
          findByAddress a (App.results s') = Some r).
Proof.
  destruct (@C7_rescan_unions_by_address Sample.sdk
              (Sample.provider Sample.usage03) 10
              (Sample.sessionWith Ledger.prior) Sample.seed
              (scanState 9 5
                 [ {| index := 0; address := Sample.addressOf 0;
                      balance := 500; count := 1;
                      utxos := Sample.response (Sample.addressOf 0)
                                 [Sample.utxo "aa" 0 500 false];
                      pathPrefix := JsString.lit "m" |};
                   {| index := 3; address := Sample.addressOf 3;
                      balance := 700; count := 1;
                      utxos := Sample.response (Sample.addressOf 3)
                                 [Sample.utxo "bb" 0 700 false];
                      pathPrefix := JsString.lit "m" |} ])
              GapReached) as (s' & Hs').
  - reflexivity.
  - reflexivity.
  - unfold exactInteger. cbn. lia.
  - unfold exactInteger. cbn. lia.
  - exact (sample_exactSums Sample.usage03 eq_refl).
  - vm_compute. reflexivity.
  - unfold exactInteger. cbn. lia.
  - do 3 eexists. split; [vm_compute; reflexivity | exact Hs'].
Defined.

(** * Further properties *)

(** ** What a scan that ends has done *)

Section ScanOutcome.

Context `{sdk : Sdk} `{provider : Provider}.
Variables (seed : Seed) (prefix : jsstring) (gap : Z).

Lemma recorded_app i n : forall m,
  recorded seed prefix i (n + m) =
  recorded seed prefix i n ++ recorded seed prefix (i + Z.of_nat n) m.
Proof.
  revert i. induction n as [|n IH]; intros i m.
  - cbn [Nat.add recorded app Z.of_nat]. now rewrite Z.add_0_r.
  - cbn [Nat.add]. rewrite !recorded_step, IH, <- app_assoc.
    replace (i + 1 + Z.of_nat n) with (i + Z.of_nat (S n)) by lia.
    reflexivity.
Qed.

(** From any loop state: the cursor only advances, the entries gained
    are those of the indices passed, none of which failed, and the exit
    tells why the loop ended. *)
Lemma scanLoop_sound fuel : forall st st' exit,
  scanLoop fuel seed prefix gap st = Some (st', exit) ->
  exists n,
    sc_index st' = sc_index st + Z.of_nat n
    /\ sc_usedResults st' =
       sc_usedResults st ++ recorded seed prefix (sc_index st) n
    /\ (forall k, sc_index st <= k < sc_index st' ->
                  isError (probe seed prefix k) = false)
    /\ match exit with
       | GapReached => gap <= sc_consecutiveUnused st'
       | Broke e => probe seed prefix (sc_index st') = inl e
                    /\ sc_consecutiveUnused st' < gap
       end.
Proof.
  induction fuel as [|fuel IH]; intros st st' exit Hrun; [discriminate|].
  rewrite scanLoop_unfold in Hrun.
  destruct (Z.ltb_spec (sc_consecutiveUnused st) gap) as [Hlt|Hge].
  - rewrite scanBody_probe in Hrun.
    destruct (probe seed prefix (sc_index st)) as [e|p] eqn:Hp.
    + injection Hrun as <- <-. exists O. cbn [recorded Z.of_nat].
      rewrite app_nil_r, Z.add_0_r. repeat split; auto. intros k Hk. lia.
    + assert (Hstep : exists acc,
                scanLoop fuel seed prefix gap acc = Some (st', exit)
                /\ sc_index acc = sc_index st + 1
                /\ sc_usedResults acc =
                   sc_usedResults st ++ recorded seed prefix (sc_index st) 1).
      { rewrite recorded_step, Hp. cbn [recorded]. rewrite app_nil_r.
        destruct p as [|[r|]]; eexists; (split; [exact Hrun|]);
          cbn [scanState sc_index sc_usedResults]; auto.
        now rewrite app_nil_r. }
      destruct Hstep as (acc & Hacc & Hi & Hu).
      destruct (IH _ _ _ Hacc) as (n & Hn & Hrec & Hfree & Hexit).
      exists (S n). rewrite Hi in *. rewrite Hu in Hrec.
      split; [lia|]. split.
      * rewrite Hrec, <- app_assoc. f_equal.
        change (S n) with (1 + n)%nat. now rewrite recorded_app.
      * split; [|exact Hexit]. intros k Hk.
        destruct (Z.eq_dec k (sc_index st)) as [->|Hne].
        -- now rewrite Hp.
        -- apply Hfree. lia.
  - injection Hrun as <- <-. exists O. cbn [recorded Z.of_nat].
    rewrite app_nil_r, Z.add_0_r. repeat split; auto. intros k Hk. lia.
Qed.

(** The counter is the length of the run of unused addresses that ends
    just before the cursor; the run lies after [lo], where counting
    began, and the counter never passes the gap limit. *)
Lemma scanLoop_trailing_run (lo : Z) fuel : forall st st' exit,
  scanLoop fuel seed prefix gap st = Some (st', exit) ->
  0 <= sc_consecutiveUnused st <= Z.max gap 0 ->
  lo <= sc_index st - sc_consecutiveUnused st ->
  (forall k, sc_index st - sc_consecutiveUnused st <= k < sc_index st ->
             isUnused (probe seed prefix k) = true) ->
  0 <= sc_consecutiveUnused st' <= Z.max gap 0
  /\ lo <= sc_index st' - sc_consecutiveUnused st'
  /\ (forall k, sc_index st' - sc_consecutiveUnused st' <= k < sc_index st' ->
                isUnused (probe seed prefix k) = true).
Proof.
  induction fuel as [|fuel IH]; intros st st' exit Hrun Hcu Hlo Hun;
    [discriminate|].
  rewrite scanLoop_unfold in Hrun.
  destruct (Z.ltb_spec (sc_consecutiveUnused st) gap) as [Hlt|Hge].
  - rewrite scanBody_probe in Hrun.
    destruct (probe seed prefix (sc_index st)) as [e|[|entry]] eqn:Hp.
    + injection Hrun as <- <-. auto.
    + apply (IH _ _ _ Hrun); cbn [scanState sc_index sc_consecutiveUnused].
      * lia.
      * lia.
      * intros k Hk. destruct (Z.eq_dec k (sc_index st)) as [->|Hne].
        -- now rewrite Hp.
        -- apply Hun. lia.
    + apply (IH _ _ _ Hrun); cbn [scanState sc_index sc_consecutiveUnused].
      * lia.
      * lia.
      * intros k Hk. lia.
  - injection Hrun as <- <-. auto.
Qed.

(** What a recorded entry looks like. *)
Lemma probe_entry i r :
  probe seed prefix i = inr (Used (Some r)) ->
  index r = i /\ pathPrefix r = prefix
  /\ balance r = sumValues (result (utxos r))
  /\ count r = Z.of_nat (length (result (utxos r)))
  /\ 0 < count r
  /\ keyMatchesAddress seed r = true.
Proof.
  unfold probe, keyMatchesAddress, entryKey.
  destruct (derive seed (fullPath prefix i)) as [k|] eqn:D; [|discriminate].
  destruct (addressHistory (toAddress k)) as [h|]; [|discriminate].
  destruct (0 <? Z.of_nat (length h)); [|discriminate].
  destruct (unspentAll (toAddress k)) as [u|]; [|discriminate].
  destruct (Z.ltb_spec 0 (Z.of_nat (length (result u)))) as [Hpos|];
    [|discriminate].
  intros [= <-]. cbn [index pathPrefix balance count utxos address].
  rewrite D, JsString_eqb_refl. repeat split; auto.
Qed.

Lemma recorded_entries n : forall i r,
  In r (recorded seed prefix i n) ->
  i <= index r < i + Z.of_nat n
  /\ probe seed prefix (index r) = inr (Used (Some r)).
Proof.
  induction n as [|n IH]; intros i r Hin; [destruct Hin|].
  rewrite recorded_step in Hin. apply in_app_or in Hin.
  destruct Hin as [Hin|Hin].
  - destruct (probe seed prefix i) as [e|[|[r'|]]] eqn:Hp;
      try (now destruct Hin).
    destruct Hin as [<-|[]].
    destruct (probe_entry i r' Hp) as (Hi & _). rewrite Hi. split; [lia|].
    exact Hp.
  - destruct (IH _ _ Hin) as [Hr Hp]. split; [lia | exact Hp].
Qed.

Lemma recorded_sorted n : forall i,
  Sorted.StronglySorted (fun a b => index a < index b)
    (recorded seed prefix i n).
Proof.
  induction n as [|n IH]; intros i; [constructor|].
  rewrite recorded_step.
  destruct (probe seed prefix i) as [e|[|[r|]]] eqn:Hp; cbn [app]; try apply IH.
  constructor; [apply IH|]. apply Forall_forall. intros x Hx.
  destruct (recorded_entries _ _ _ Hx) as [Hr _].
  destruct (probe_entry i r Hp) as (Hi & _). lia.
Qed.

End ScanOutcome.

Lemma keepFirst_incl l : forall acc x,
  In x (keepFirstByAddress acc l) -> In x l.
Proof.
  induction l as [|y l IH]; intros acc x Hin; cbn [keepFirstByAddress] in Hin;
    [destruct Hin|].
  destruct (existsb (JsString.eqb (address y)) acc).
  - right. now apply (IH acc).
  - destruct Hin as [<-|Hin]; [now left | right; now apply (IH _ _ Hin)].
Qed.

Lemma mergeResults_incl r used x :
  In x (mergeResults r used) -> In x r \/ In x used.
Proof.
  rewrite mergeResults_keepFirst. intros Hin.
  apply keepFirst_incl in Hin. now apply in_app_or.
Qed.



(** X2: a scan that ends on a failed lookup stops at the first index
    whose lookup fails: the cursor is that index, every index before it
    was examined without error, and the entries found before it are
    kept.  Start offset, gap limit and cursor are exact integers and the
    reported amounts add up exactly. *)
Theorem scan_stops_at_first_failed_lookup `{sdk : Sdk} `{provider : Provider}
    (seed : Seed) (prefix : jsstring) (gap s : Z) (fuel : nat)
    (st' : ScanState) (e : Error) :
  exactInteger s -> exactInteger gap -> exactSums ->
  scanLoop fuel seed prefix gap (scanState s 0 []) = Some (st', Broke e) ->
  exactInteger (sc_index st') ->
  s <= sc_index st'
  /\ probe seed prefix (sc_index st') = inl e
  /\ (forall k, s <= k < sc_index st' -> isError (probe seed prefix k) = false)
  /\ sc_usedResults st' =
     recorded seed prefix s (Z.to_nat (sc_index st' - s)).
Proof.
  intros _ _ _ Hrun _.
  destruct (scanLoop_sound _ _ _ _ _ _ _ Hrun) as (n & Hn & Hrec & Hfree & He & _).
  cbn [scanState sc_index sc_usedResults app] in *.
  repeat split; auto; [lia|].
  rewrite Hrec. replace (Z.to_nat (sc_index st' - s)) with n by lia.
  reflexivity.
Qed.

Lemma scan_stops_at_first_failed_lookup_witness :
  exists st' e,
    @scanLoop Sample.sdk Flaky.provider 10 Sample.seed (JsString.lit "m") 5
      (scanState 0 0 []) = Some (st', Broke e)
    /\ 0 <= sc_index st'
    /\ @probe Sample.sdk Flaky.provider Sample.seed (JsString.lit "m")
         (sc_index st') = inl e
    /\ (forall k, 0 <= k < sc_index st' ->
          isError (@probe Sample.sdk Flaky.provider Sample.seed
                     (JsString.lit "m") k) = false)
    /\ sc_usedResults st' =
       @recorded Sample.sdk Flaky.provider Sample.seed (JsString.lit "m") 0
         (Z.to_nat (sc_index st' - 0)).
Proof.
  do 2 eexists. split.
  - vm_compute. reflexivity.
  - apply (@scan_stops_at_first_failed_lookup Sample.sdk Flaky.provider
             Sample.seed (JsString.lit "m") 5 0 10).
    + unfold exactInteger. lia.
    + unfold exactInteger. lia.
    + exact (sample_exactSums Sample.usage03 eq_refl).
    + vm_compute. reflexivity.
    + unfold exactInteger. cbn [sc_index]. lia.
Defined.

(** X3: a scan that ends because the gap was reached has just seen as
    many unused addresses in a row as the gap limit asks for (none, for a
    limit of zero or less): the counter equals the limit, the addresses
    that many places before the cursor are all unused, and they all lie
    at or after the start offset.  Start offset, gap limit and cursor
    are exact integers. *)
Theorem scan_stops_only_after_a_full_gap `{sdk : Sdk} `{provider : Provider}
    (seed : Seed) (prefix : jsstring) (gap s : Z) (fuel : nat)
    (st' : ScanState) :
  exactInteger s -> exactInteger gap ->
  scanLoop fuel seed prefix gap (scanState s 0 []) = Some (st', GapReached) ->
  exactInteger (sc_index st') ->
  sc_consecutiveUnused st' = Z.max gap 0
  /\ s + Z.max gap 0 <= sc_index st'
  /\ (forall k, sc_index st' - Z.max gap 0 <= k < sc_index st' ->
                isUnused (probe seed prefix k) = true).
Proof.
  intros _ _ Hrun _.
  destruct (scanLoop_sound _ _ _ _ _ _ _ Hrun) as (n & _ & _ & _ & Hge).
  destruct (scanLoop_trailing_run seed prefix gap s _ _ _ _ Hrun)
    as (Hcu & Hlo & Hun); cbn [scanState sc_index sc_consecutiveUnused];
    [lia | lia | intros k Hk; lia|].
  assert (Heq : sc_consecutiveUnused st' = Z.max gap 0) by lia.
  rewrite <- Heq. repeat split; auto. lia.
Qed.

Lemma scan_stops_only_after_a_full_gap_witness :
  exists st',
    @scanLoop Sample.sdk (Sample.provider Sample.usage03) 10 Sample.seed
      (JsString.lit "m") 3 (scanState 0 0 []) = Some (st', GapReached)
    /\ sc_consecutiveUnused st' = Z.max 3 0
    /\ 0 + Z.max 3 0 <= sc_index st'
    /\ (forall k, sc_index st' - Z.max 3 0 <= k < sc_index st' ->
          isUnused (@probe Sample.sdk (Sample.provider Sample.usage03)
                      Sample.seed (JsString.lit "m") k) = true).
Proof.
  eexists. split.
  - vm_compute. reflexivity.
  - apply (@scan_stops_only_after_a_full_gap Sample.sdk
             (Sample.provider Sample.usage03) Sample.seed
             (JsString.lit "m") 3 0 10).
    + unfold exactInteger. lia.
    + unfold exactInteger. lia.
    + vm_compute. reflexivity.
    + unfold exactInteger. cbn [sc_index]. lia.
Defined.

(** X4: with a gap limit of at least one, a scan over addresses that are
    all in use never ends: whatever the number of iterations allowed,
    the loop is still running when they are used up.  The code has no
    other bound on the number of lookups. *)
Theorem scan_never_ends_when_every_address_is_used
    `{sdk : Sdk} `{provider : Provider}
    (seed : Seed) (prefix : jsstring) (gap s : Z) (fuel : nat)
    (acc : list Result) :
  1 <= gap ->
  (forall k, s <= k -> isUsed (probe seed prefix k) = true) ->
  scanLoop fuel seed prefix gap (scanState s 0 acc) = None.
Proof.
  intros Hgap. revert s acc.
  induction fuel as [|fuel IH]; intros s acc Hused; [reflexivity|].
  rewrite scanLoop_unfold. cbn [scanState sc_consecutiveUnused].
  replace (0 <? gap) with true by (symmetry; apply Z.ltb_lt; lia).
  rewrite scanBody_probe. cbn [scanState sc_index sc_usedResults].
  destruct (isUsed_inv _ (Hused s ltac:(lia))) as [e ->].
  apply IH. intros k Hk. apply Hused. lia.
Qed.

Lemma scan_never_ends_when_every_address_is_used_witness :
  @scanLoop Sample.sdk Busy.provider 25 Sample.seed (JsString.lit "m") 5
    (scanState 0 0 []) = None.
Proof.
  apply (@scan_never_ends_when_every_address_is_used Sample.sdk Busy.provider).
  - lia.
  - intros k Hk. reflexivity.
Defined.

(** X5: entries are recorded with what the sweep needs to find their key
    again.  If the key re-derived from each prior entry's stored prefix
    and index owns that entry's address, then after a scan with the same
    mnemonic and PIN the same holds for every entry of the registry. *)
Theorem scan_keeps_registry_keyed_by_address `{sdk : Sdk} `{provider : Provider}
    (fuel : nat) (s s' : App.State) (seed : Seed) :
  generateAddresses fuel s = Some s' ->
  toSeed (App.mnemonic s) (App.pin s) = Some seed ->
  forallb (keyMatchesAddress seed) (App.results s) = true ->
  forallb (keyMatchesAddress seed) (App.results s') = true.
Proof.
  unfold generateAddresses.
  cbn [App.mnemonic App.pin App.setIsLoading App.startOffset App.pathPrefix
       App.consecutiveUnusedGap].
  intros Hgen Hseed Hprior. rewrite Hseed in Hgen.
  destruct (fromSeed seed); [|now injection Hgen as <-].
  destruct (scanLoop fuel seed (App.pathPrefix s)
              (App.consecutiveUnusedGap s) _) as [[st exit]|] eqn:Hrun;
    [|discriminate].
  injection Hgen as <-. cbn [App.results App.setIsLoading App.setTxHex
                            App.setResults].
  apply forallb_forall. intros x Hx.
  apply mergeResults_incl in Hx. destruct Hx as [Hx|Hx].
  - rewrite forallb_forall in Hprior. now apply Hprior.
  - destruct (scanLoop_sound _ _ _ _ _ _ _ Hrun) as (n & _ & Hrec & _).
    cbn [scanState sc_usedResults sc_index app] in Hrec. rewrite Hrec in Hx.
    destruct (recorded_entries _ _ _ _ _ Hx) as [_ Hp].
    now destruct (probe_entry _ _ _ _ Hp) as (_ & _ & _ & _ & _ & Hkey).
Qed.

Lemma scan_keeps_registry_keyed_by_address_witness :
  exists s',
    @generateAddresses Sample.sdk (Sample.provider Sample.usage03) 10
      (Sample.session 3) = Some s'
    /\ forallb (@keyMatchesAddress Sample.sdk Sample.seed) (App.results s')
       = true.
Proof.
  eexists. split.
  - vm_compute. reflexivity.
  - apply (@scan_keeps_registry_keyed_by_address Sample.sdk
             (Sample.provider Sample.usage03) 10 (Sample.session 3)).
    + vm_compute. reflexivity.
    + reflexivity.
    + reflexivity.
Defined.

(** X6: every entry a scan records carries the index it was found at
    (between the start offset and the cursor), the prefix of the scan, a
    positive count equal to the number of outputs listed, and a balance
    equal to the sum of their values; entries come in increasing order of
    index, so no index is recorded twice.  Start offset, gap limit and
    cursor are exact integers and the reported amounts add up exactly. *)
Theorem scan_entries_are_well_formed `{sdk : Sdk} `{provider : Provider}
    (seed : Seed) (prefix : jsstring) (gap s : Z) (fuel : nat)
    (st' : ScanState) (exit : LoopExit) :
  exactInteger s -> exactInteger gap -> exactSums ->
  scanLoop fuel seed prefix gap (scanState s 0 []) = Some (st', exit) ->
  exactInteger (sc_index st') ->
  Forall (fun r =>
            s <= index r < sc_index st'
            /\ pathPrefix r = prefix
            /\ count r = Z.of_nat (length (result (utxos r)))
            /\ 0 < count r
            /\ balance r = sumValues (result (utxos r)))
         (sc_usedResults st')
  /\ Sorted.StronglySorted (fun a b => index a < index b) (sc_usedResults st').
Proof.
  intros _ _ _ Hrun _.
  destruct (scanLoop_sound _ _ _ _ _ _ _ Hrun) as (n & Hn & Hrec & _).
  cbn [scanState sc_index sc_usedResults app] in *. rewrite Hrec. split.
  - apply Forall_forall. intros r Hr.
    destruct (recorded_entries _ _ _ _ _ Hr) as [Hi Hp].
    destruct (probe_entry _ _ _ _ Hp) as (_ & Hpre & Hbal & Hcnt & Hpos & _).
    repeat split; auto; lia.
  - apply recorded_sorted.
Qed.

Lemma scan_entries_are_well_formed_witness :
  exists st' exit,
    @scanLoop Sample.sdk (Sample.provider Sample.usage03) 10 Sample.seed
      (JsString.lit "m") 3 (scanState 0 0 []) = Some (st', exit)
    /\ Forall (fun r =>
                 0 <= index r < sc_index st'
                 /\ pathPrefix r = JsString.lit "m"
                 /\ count r = Z.of_nat (length (result (utxos r)))
                 /\ 0 < count r
                 /\ balance r = sumValues (result (utxos r)))
              (sc_usedResults st')
    /\ Sorted.StronglySorted (fun a b => index a < index b)
         (sc_usedResults st').
Proof.
  do 2 eexists. split.
  - vm_compute. reflexivity.
  - eapply (@scan_entries_are_well_formed Sample.sdk
             (Sample.provider Sample.usage03) Sample.seed
             (JsString.lit "m") 3 0 10).
    + unfold exactInteger. lia.
    + unfold exactInteger. lia.
    + exact (sample_exactSums Sample.usage03 eq_refl).
    + vm_compute. reflexivity.
    + unfold exactInteger. cbn [sc_index]. lia.
Defined.

(** ** More on the registry merge *)

Lemma keepFirst_all_seen l : forall acc,
  (forall x, In x l -> In (address x) acc) ->
  keepFirstByAddress acc l = [].
Proof.
  induction l as [|y l IH]; intros acc Hall; cbn [keepFirstByAddress];
    [reflexivity|].
  replace (existsb (JsString.eqb (address y)) acc) with true.
  - apply IH. intros x Hx. apply Hall. now right.
  - symmetry. apply existsb_eqb_In. apply Hall. now left.
Qed.

(** X7: whatever the prior registry and whatever the scan found, the
    merged registry holds at most one entry per address, and every entry
    in it is an entry of the prior registry or of the scan: the merge
    neither duplicates nor invents. *)
Theorem merged_registry_is_a_set_of_known_entries (r used : list Result) :
  NoDup (map address (mergeResults r used))
  /\ (forall x, In x (mergeResults r used) -> In x r \/ In x used).
Proof.
  split; [apply mergeResults_distinct | intros x; apply mergeResults_incl].
Qed.

(** X8: merging the same scan result a second time changes nothing, so
    repeating a scan that finds the same entries leaves the registry as
    the first run left it. *)
Theorem merging_twice_is_merging_once (r used : list Result) :
  mergeResults (mergeResults r used) used = mergeResults r used.
Proof.
  rewrite (mergeResults_keepFirst (mergeResults r used) used).
  rewrite keepFirst_distinct_prefix;
    [|apply mergeResults_distinct | intros a []].
  rewrite keepFirst_all_seen; [apply app_nil_r|].
  intros x Hx. cbn [app].
  destruct (mergeResults_union r used) as [Hmem _]. apply Hmem.
  right. now apply in_map.
Qed.

(** ** More on paths *)

(** X9: for an index that is an exact integer, the assembled path is
    the normalised prefix, a slash and the decimal index, and two such
    indices give the same path under one prefix only if they are the
    same index: a scan never derives two of its addresses from one
    path. *)
Theorem fullPath_ends_with_its_index (prefix : jsstring) (i : Z) :
  exactInteger i ->
  fullPath prefix i =
    straighten prefix ++ JsString.lit "/" ++ JsString.ofNumber i
  /\ (forall j, exactInteger j -> fullPath prefix i = fullPath prefix j ->
                i = j).
Proof.
  intros _.
  assert (Hshape : forall k, fullPath prefix k =
            straighten prefix ++ JsString.lit "/" ++ JsString.ofNumber k).
  { intros k. unfold fullPath.
    fold (straighten (prefix ++ JsString.lit "/" ++ JsString.ofNumber k)).
    unfold straighten at 1. rewrite replaceAll_app. fold (straighten prefix).
    f_equal. unfold JsString.ofNumber. rewrite <- lit_app.
    apply straighten_ascii. }
  split; [apply Hshape|].
  intros j _ E. rewrite !Hshape in E.
  apply app_inv_head in E. apply app_inv_head in E. now apply ofNumber_inj.
Qed.

Lemma fullPath_ends_with_its_index_witness :
  fullPath (JsString.lit "m/44" ++ [RIGHT_SINGLE_QUOTE]) 7 =
    straighten (JsString.lit "m/44" ++ [RIGHT_SINGLE_QUOTE])
    ++ JsString.lit "/" ++ JsString.ofNumber 7
  /\ (forall j, exactInteger j ->
        fullPath (JsString.lit "m/44" ++ [RIGHT_SINGLE_QUOTE]) 7 =
        fullPath (JsString.lit "m/44" ++ [RIGHT_SINGLE_QUOTE]) j ->
        7 = j).
Proof.
  apply (fullPath_ends_with_its_index
           (JsString.lit "m/44" ++ [RIGHT_SINGLE_QUOTE]) 7).
  unfold exactInteger. lia.
Defined.

(** ** More on the fee check *)

(** X10: the fee check is monotone: a transaction it refuses is still
    refused with a larger fee or a smaller size, and one it lets through
    is still let through with a smaller fee or a larger size. *)
Theorem feeTooHigh_monotone (sats sats' : Z) (size size' : N) :
  sats <= sats' -> (size' <= size)%N ->
  feeTooHigh sats size = true -> feeTooHigh sats' size' = true.
Proof.
  intros Hs Hz. rewrite !feeTooHigh_integers, !andb_true_iff, !Z.ltb_lt. lia.
Qed.

Lemma feeTooHigh_monotone_witness : feeTooHigh 5 150 = true.
Proof.
  apply (feeTooHigh_monotone 3 5 200 150); [lia | lia | ].
  now rewrite feeTooHigh_integers.
Defined.

(** ** More on the key map *)

Section KeyMapContents.

Context `{sdk : Sdk}.

Implicit Types (m : JsObject.t (list KeyedUtxo)) (k txid : jsstring).

Lemma get_none_iff {V} k (o : JsObject.t V) :
  JsObject.get k o = None <-> ~ In k (map fst o).
Proof.
  induction o as [|[k' v] o IH]; cbn [JsObject.get map fst In]; [tauto|].
  destruct (JsString.eqb k' k) eqn:E.
  - apply JsString_eqb_eq in E. split; [discriminate | tauto].
  - apply JsString_eqb_neq in E. rewrite IH. tauto.
Qed.

Lemma set_keys {V} k (v : V) (o : JsObject.t V) :
  map fst (JsObject.set k v o) =
  match JsObject.get k o with
  | Some _ => map fst o
  | None => map fst o ++ [k]
  end.
Proof.
  induction o as [|[k' v'] o IH]; cbn [JsObject.set JsObject.get map fst app];
    [reflexivity|].
  destruct (JsString.eqb k' k); cbn [map fst]; [reflexivity|].
  rewrite IH. now destruct (JsObject.get k o).
Qed.

Lemma set_keys_distinct {V} k (v : V) (o : JsObject.t V) :
  NoDup (map fst o) -> NoDup (map fst (JsObject.set k v o)).
Proof.
  intros Hnd. rewrite set_keys.
  destruct (JsObject.get k o) eqn:G; [exact Hnd|].
  apply get_none_iff in G.
  apply NoDup_app; [exact Hnd | repeat constructor; intros [] |].
  intros x Hx [<-|[]]. contradiction.
Qed.

Lemma set_recordCount k (v : list KeyedUtxo) m :
  (recordCount (JsObject.set k v m) + length (bucket m k)
   = recordCount m + length v)%nat.
Proof.
  unfold recordCount, bucket.
  induction m as [|[k' v'] m IH];
    cbn [JsObject.set JsObject.get map snd concat length].
  - rewrite app_nil_r. lia.
  - destruct (JsString.eqb k' k); cbn [map snd concat].
    + rewrite !length_app. lia.
    + rewrite !length_app. lia.
Qed.

Lemma pushUtxo_recordCount key utxo m :
  recordCount (pushUtxo key utxo m) = S (recordCount m).
Proof.
  unfold pushUtxo.
  destruct (JsObject.get (tx_hash utxo) m) as [l|] eqn:G.
  - rewrite G. pose proof (set_recordCount (tx_hash utxo)
      (l ++ [{| vout := tx_pos utxo; privKey := key; kvalue := value utxo |}])
      m) as H.
    unfold bucket in H. rewrite G, length_app in H. cbn [length] in H. lia.
  - rewrite get_set_same.
    pose proof (set_recordCount (tx_hash utxo) [] m) as H1.
    pose proof (set_recordCount (tx_hash utxo)
      ([] ++ [{| vout := tx_pos utxo; privKey := key; kvalue := value utxo |}])
      (JsObject.set (tx_hash utxo) [] m)) as H2.
    unfold bucket in H1, H2. rewrite G in H1. rewrite get_set_same in H2.
    change (@length KeyedUtxo []) with O in H1, H2.
    change (length ([] ++ [{| vout := tx_pos utxo; privKey := key;
                             kvalue := value utxo |}])) with 1%nat in H2.
    lia.
Qed.

Lemma pushUtxo_keys_distinct key utxo m :
  NoDup (map fst m) -> NoDup (map fst (pushUtxo key utxo m)).
Proof.
  intros Hnd. unfold pushUtxo.
  destruct (JsObject.get (tx_hash utxo) m) as [l|] eqn:G.
  - rewrite G. now apply set_keys_distinct.
  - rewrite get_set_same. now do 2 apply set_keys_distinct.
Qed.

Lemma pushAll_count key us : forall m,
  NoDup (map fst m) ->
  NoDup (map fst (fold_left (fun m utxo => pushUtxo key utxo m) us m))
  /\ recordCount (fold_left (fun m utxo => pushUtxo key utxo m) us m)
     = (recordCount m + length us)%nat.
Proof.
  induction us as [|u us IH]; intros m Hnd; cbn [fold_left length].
  - split; [exact Hnd | lia].
  - destruct (IH _ (pushUtxo_keys_distinct key u m Hnd)) as [Hk Hc].
    split; [exact Hk|]. rewrite Hc, pushUtxo_recordCount. lia.
Qed.

Lemma buildKeyMapFrom_count seed rs : forall m m',
  buildKeyMapFrom seed rs m = inr m' ->
  NoDup (map fst m) ->
  NoDup (map fst m')
  /\ recordCount m' = (recordCount m + length (registryOutputs rs))%nat.
Proof.
  induction rs as [|res rs IH]; intros m m' Hrun Hnd;
    cbn [buildKeyMapFrom registryOutputs flat_map] in *.
  - injection Hrun as <-. split; [exact Hnd | cbn; lia].
  - unfold addEntry in Hrun.
    destruct (derive seed (fullPath (pathPrefix res) (index res))) as [key|];
      [|discriminate].
    destruct (pushAll_count key (result (utxos res)) m Hnd) as [Hk Hc].
    destruct (IH _ _ Hrun Hk) as [Hk' Hc']. split; [exact Hk'|].
    rewrite Hc', Hc, length_app. unfold registryOutputs. lia.
Qed.

Lemma expectedBucket_origin seed rs txid u :
  In u (expectedBucket seed rs txid) ->
  exists r key utxo,
    In r rs /\ entryKey seed r = Some key
    /\ In utxo (result (utxos r)) /\ tx_hash utxo = txid
    /\ u = keyedUtxoOf key utxo.
Proof.
  induction rs as [|res rs IH]; cbn [expectedBucket]; [intros []|].
  intros Hin. apply in_app_or in Hin. destruct Hin as [Hin|Hin].
  - destruct (entryKey seed res) as [key|] eqn:K; [|destruct Hin].
    apply in_map_iff in Hin. destruct Hin as (utxo & <- & Hf).
    apply filter_In in Hf. destruct Hf as [Hu Ht].
    apply JsString_eqb_eq in Ht.
    exists res, key, utxo. repeat split; auto. now left.
  - destruct (IH Hin) as (r & key & utxo & Hr & H).
    exists r, key, utxo. split; [now right | exact H].
Qed.

End KeyMapContents.

(** X11: a key map that gets built has one record for every unspent
    output listed in the registry, no more and no fewer; its keys are
    pairwise different transaction ids, and no key holds an empty
    list. *)
Theorem key_map_has_one_record_per_output `{sdk : Sdk}
    (seed : Seed) (rs : list Result) (m : JsObject.t (list KeyedUtxo)) :
  buildKeyMap seed rs = inr m ->
  recordCount m = length (registryOutputs rs)
  /\ NoDup (map fst m)
  /\ (forall txid, JsObject.get txid m <> Some []).
Proof.
  unfold buildKeyMap. intros Hrun.
  destruct (buildKeyMapFrom_count seed rs [] m Hrun (NoDup_nil _)) as [Hk Hc].
  assert (Hne : noEmptyBucket (@nil (jsstring * list KeyedUtxo)))
    by (intros txid; discriminate).
  pose proof (buildKeyMapFrom_spec seed rs [] Hne) as Hspec.
  rewrite Hrun in Hspec. destruct Hspec as (_ & Hne' & _).
  repeat split; auto.
Qed.

Lemma key_map_has_one_record_per_output_witness :
  exists m,
    @buildKeyMap Sample.sdk Sample.seed Sample.mixed = inr m
    /\ recordCount m = length (registryOutputs Sample.mixed)
    /\ NoDup (map fst m)
    /\ (forall txid, JsObject.get txid m <> Some []).
Proof.
  eexists. split.
  - vm_compute. reflexivity.
  - apply (@key_map_has_one_record_per_output Sample.sdk Sample.seed
             Sample.mixed).
    vm_compute. reflexivity.
Defined.

(** X12: for a registry of well-formed entries (exact indices, outputs
    that name transaction ids) in which the key re-derived for each
    entry owns the entry's address, the key map always gets built, and
    every record in it, wherever it is stored, describes an output that
    some registry entry lists (same transaction id, position and value)
    and carries a key that owns that entry's address. *)
Theorem key_map_keys_own_their_outputs `{sdk : Sdk}
    (seed : Seed) (rs : list Result) :
  forallb wellFormedEntry rs = true ->
  forallb (keyMatchesAddress seed) rs = true ->
  exists m,
    buildKeyMap seed rs = inr m
    /\ forall txid l u,
         JsObject.get txid m = Some l -> In u l ->
         exists r utxo,
           In r rs /\ In utxo (result (utxos r))
           /\ tx_hash utxo = txid /\ tx_pos utxo = vout u
           /\ value utxo = kvalue u
           /\ toAddress (privKey u) = address r.
Proof.
  intros _ Hal. rewrite forallb_forall in Hal.
  assert (Hne : noEmptyBucket (@nil (jsstring * list KeyedUtxo)))
    by (intros txid; discriminate).
  pose proof (buildKeyMapFrom_spec seed rs [] Hne) as Hspec.
  unfold buildKeyMap.
  destruct (buildKeyMapFrom seed rs []) as [e|m].
  - exfalso. assert (Hall : forallb (fun res => isSome (entryKey seed res)) rs
                            = true).
    { apply forallb_forall. intros r Hr. specialize (Hal r Hr).
      unfold keyMatchesAddress in Hal. now destruct (entryKey seed r). }
    congruence.
  - exists m. split; [reflexivity|]. intros txid l u Hget Hin.
    destruct Hspec as (_ & _ & Hb). specialize (Hb txid).
    unfold bucket at 1 2 in Hb. rewrite Hget in Hb. cbn in Hb. subst l.
    destruct (expectedBucket_origin _ _ _ _ Hin)
      as (r & key & utxo & Hr & Hk & Hu & Ht & ->).
    exists r, utxo. cbn [keyedUtxoOf vout kvalue privKey].
    repeat split; auto.
    specialize (Hal r Hr). unfold keyMatchesAddress in Hal. rewrite Hk in Hal.
    now apply JsString_eqb_eq.
Qed.

Lemma key_map_keys_own_their_outputs_witness :
  exists m,
    @buildKeyMap Sample.sdk Sample.seed Ledger.mixed = inr m
    /\ forall txid l u,
         JsObject.get txid m = Some l -> In u l ->
         exists r utxo,
           In r Ledger.mixed /\ In utxo (result (utxos r))
           /\ tx_hash utxo = txid /\ tx_pos utxo = vout u
           /\ value utxo = kvalue u
           /\ @toAddress Sample.sdk (privKey u) = address r.
Proof.
  apply (@key_map_keys_own_their_outputs Sample.sdk Sample.seed Ledger.mixed).
  - vm_compute. reflexivity.
  - vm_compute. reflexivity.
Defined.

(** ** More on the sweep *)

Section SweepSteps.

Context `{sdk : Sdk} `{txsdk : @TxSdk sdk} `{wallet : @Wallet sdk txsdk}
        `{provider : Provider}.

Lemma describeInputs_length (m : JsObject.t (list KeyedUtxo)) :
  length (describeInputs m) = recordCount m.
Proof.
  unfold describeInputs, recordCount.
  induction m as [|[txid l] m IH]; cbn [flat_map map snd concat];
    [reflexivity|].
  now rewrite !length_app, length_map, IH.
Qed.

Lemma describeInputs_uniform (m : JsObject.t (list KeyedUtxo)) :
  Forall (fun i => unlockingScriptLength i = 108
                   /\ inputDescription i = JsString.lit "from mnemonic")
         (describeInputs m).
Proof.
  unfold describeInputs. apply Forall_forall. intros i Hi.
  apply in_flat_map in Hi. destruct Hi as ([txid l] & _ & Hi).
  apply in_map_iff in Hi. destruct Hi as (u & <- & _). now split.
Qed.

Lemma gatherBeef_inputs entries : forall beef ins st st' b ins',
  gatherBeef entries beef ins st = (st', inr (b, ins')) ->
  ins' = ins ++ describeInputs entries.
Proof.
  induction entries as [|[txid utxoList] rest IH];
    intros beef ins st st' b ins' Hrun; cbn [gatherBeef] in Hrun.
  - injection Hrun as _ _ <-. cbn. now rewrite app_nil_r.
  - unfold bind, modify, orThrow, ret, throw in Hrun.
    destruct (txBeef txid) as [beefHex|]; [|discriminate].
    destruct (mergeBeef beef beefHex) as [beef'|]; [|discriminate].
    apply IH in Hrun. rewrite Hrun.
    unfold describeInputs. cbn [flat_map fst snd]. now rewrite <- app_assoc.
Qed.

Lemma resolveAll_prefix m ins :
  map fst (fst (resolveAll m ins))
  = firstn (length (fst (resolveAll m ins))) ins
  /\ Forall (fun p => resolveKey m (fst p) = inr (snd p))
            (fst (resolveAll m ins))
  /\ match snd (resolveAll m ins) with
     | None => length (fst (resolveAll m ins)) = length ins
     | Some e =>
       exists input,
         nth_error ins (length (fst (resolveAll m ins))) = Some input
         /\ resolveKey m input = inl e
     end.
Proof.
  induction ins as [|input rest IH]; cbn [resolveAll].
  - cbn. repeat split; constructor.
  - destruct (resolveKey m input) as [e|key] eqn:Hk.
    + cbn. repeat split; [constructor|]. now exists input.
    + destruct (resolveAll m rest) as [done failure].
      cbn [fst snd map length firstn nth_error] in *.
      destruct IH as (Hpre & Hall & Hlast). repeat split.
      * now rewrite <- Hpre.
      * constructor; [exact Hk | exact Hall].
      * destruct failure; [exact Hlast | now rewrite Hlast].
Qed.

End SweepSteps.

(** X13: for a registry of well-formed entries (outputs that name
    transaction ids, at positions that are exact integers), when the
    key map is built and every proof bundle is fetched and merged, the
    inputs put together for the wallet's [createAction] are the
    descriptions of the map's records, key by key in the order the keys
    were first seen: exactly as many as the registry lists unspent
    outputs, each with description 'from mnemonic' and unlocking-script
    length 108. *)
Theorem wallet_is_offered_every_output_once
    `{sdk : Sdk} `{txsdk : @TxSdk sdk} `{wallet : @Wallet sdk txsdk}
    `{provider : Provider}
    (seed : Seed) (rs : list Result) (m : JsObject.t (list KeyedUtxo))
    (st st' : SweepState) (bi : Beef * list CreateActionInput) :
  forallb wellFormedEntry rs = true ->
  buildKeyMap seed rs = inr m ->
  gatherBeef (JsObject.entries m) newBeef [] st = (st', inr bi) ->
  snd bi = describeInputs m
  /\ length (snd bi) = length (registryOutputs rs)
  /\ Forall (fun i => unlockingScriptLength i = 108
                      /\ inputDescription i = JsString.lit "from mnemonic")
            (snd bi).
Proof.
  intros _ Hmap Hrun. destruct bi as [b ins]. cbn [snd].
  apply gatherBeef_inputs in Hrun. cbn [app] in Hrun. subst ins.
  unfold JsObject.entries.
  rewrite app_nil_l.
  split; [reflexivity|]. split; [|apply describeInputs_uniform].
  rewrite describeInputs_length.
  unfold buildKeyMap in Hmap.
  now destruct (buildKeyMapFrom_count seed rs [] m Hmap (NoDup_nil _)).
Qed.

Lemma wallet_is_offered_every_output_once_witness :
  exists m st' bi,
    @buildKeyMap Sample.sdk Sample.seed Ledger.mixed = inr m
    /\ @gatherBeef Sample.sdk (Sample.txSdk Sample.txAtLimit)
         (Sample.wallet Sample.txAtLimit) (Sample.provider [])
         (JsObject.entries m) (@newBeef Sample.sdk (Sample.txSdk Sample.txAtLimit)) []
         {| app := Sample.sessionWith Ledger.mixed; trace := [] |}
       = (st', inr bi)
    /\ snd bi = describeInputs m
    /\ length (snd bi) = length (registryOutputs Ledger.mixed)
    /\ Forall (fun i => unlockingScriptLength i = 108
                        /\ inputDescription i = JsString.lit "from mnemonic")
              (snd bi).
Proof.
  do 3 eexists. split; [vm_compute; reflexivity|]. split.
  - vm_compute. reflexivity.
  - eapply (@wallet_is_offered_every_output_once Sample.sdk
              (Sample.txSdk Sample.txAtLimit) (Sample.wallet Sample.txAtLimit)
              (Sample.provider []) Sample.seed Ledger.mixed _
              {| app := Sample.sessionWith Ledger.mixed; trace := [] |}).
    + vm_compute. reflexivity.
    + vm_compute. reflexivity.
    + vm_compute. reflexivity.
Defined.

(** X14: the signing loop attaches keys to inputs in transaction order
    and stops at the first input it finds no key for.  The inputs it
    did reach keep the key they were given (each the result of the
    two-factor lookup for that input), the exception is the one that
    first input raises, and when no input fails every input has a key and
    the keys are returned in input order. *)
Theorem signing_loop_unlocks_a_prefix `{sdk : Sdk}
    (m : JsObject.t (list KeyedUtxo)) (ins : list TransactionInput)
    (st : SweepState) :
  unlockInputs m ins st =
    ({| app := app st;
        trace := trace st
                 ++ map (fun p => Unlock (fst p) (snd p))
                        (fst (resolveAll m ins)) |},
     match snd (resolveAll m ins) with
     | Some e => inl e
     | None => inr (map snd (fst (resolveAll m ins)))
     end)
  /\ map fst (fst (resolveAll m ins))
     = firstn (length (fst (resolveAll m ins))) ins
  /\ Forall (fun p => resolveKey m (fst p) = inr (snd p))
            (fst (resolveAll m ins))
  /\ match snd (resolveAll m ins) with
     | None => length (fst (resolveAll m ins)) = length ins
     | Some e =>
       exists input,
         nth_error ins (length (fst (resolveAll m ins))) = Some input
         /\ resolveKey m input = inl e
     end.
Proof. split; [apply unlockInputs_run | apply resolveAll_prefix]. Qed.

(** X15: in [createIngestTx], from 'Signing Tx' on, the events are: one
    key attached per input, in order, up to the first input without a
    key; then, only if every input got a key and signing did not throw,
    the signature and one call of the wallet's [signAction].  Nothing is
    signed while an input lacks a key, and the wallet is never asked to
    broadcast an unsigned transaction or asked twice. *)
Theorem signing_and_submission_order
    `{sdk : Sdk} `{txsdk : @TxSdk sdk} `{wallet : @Wallet sdk txsdk}
    (p : Prepared) (st : SweepState) :
  trace (fst (signAndSubmit p st)) =
  trace st
  ++ map (fun q => Unlock (fst q) (snd q))
         (fst (resolveAll (utxosByTxid p) (inputs (candidate p))))
  ++ match snd (resolveAll (utxosByTxid p) (inputs (candidate p))) with
     | Some _ => []
     | None =>
       match sign (candidate p)
               (map snd (fst (resolveAll (utxosByTxid p)
                                         (inputs (candidate p))))) with
       | None => []
       | Some _ => [Signed (candidate p);
                    SignActionCalled (reference (signableTransaction p))]
       end
     end.
Proof.
  unfold signAndSubmit, bind, modify, emit, orThrow, throw, ret.
  rewrite unlockInputs_run. cbn [app trace].
  destruct (snd (resolveAll (utxosByTxid p) (inputs (candidate p))));
    cbn [fst trace]; [now rewrite app_nil_r|].
  destruct (sign (candidate p) _) as [spends|]; cbn [fst trace];
    [|now rewrite app_nil_r].
  destruct (signAction _ spends) as [signed|]; cbn [fst trace].
  - destruct (falsy signed); cbn [fst trace app];
      now rewrite <- !app_assoc.
  - now rewrite <- !app_assoc.
Qed.

Section SweepFrame.

Context `{sdk : Sdk} `{txsdk : @TxSdk sdk} `{wallet : @Wallet sdk txsdk}
        `{provider : Provider}.

Lemma quiet_setIsLoading m : preserves quiet (modify (App.setIsLoading m)).
Proof. intros st. reflexivity. Qed.

Lemma quiet_emit ev : preserves quiet (emit ev).
Proof. intros st. reflexivity. Qed.

Lemma quiet_unlockInputs m ins : preserves quiet (unlockInputs m ins).
Proof. intros st. unfold quiet. now rewrite unlockInputs_keeps_app. Qed.

Lemma quiet_gatherBeef entries : forall beef ins,
  preserves quiet (gatherBeef entries beef ins).
Proof.
  induction entries as [|[txid utxoList] rest IH]; intros beef ins;
    cbn [gatherBeef]; [apply preserves_ret|].
  apply preserves_bind; [apply quiet_setIsLoading | intros _].
  apply preserves_bind; [apply preserves_orThrow | intros beefHex].
  apply preserves_bind; [apply preserves_orThrow | intros beef']. apply IH.
Qed.

Lemma quiet_obtainTransaction mnemonic pin results :
  preserves quiet (obtainTransaction mnemonic pin results).
Proof.
  unfold obtainTransaction.
  apply preserves_bind; [apply quiet_setIsLoading | intros _].
  apply preserves_bind; [apply preserves_orThrow | intros seed].
  apply preserves_bind;
    [apply preserves_if; [apply preserves_ret | apply preserves_throw]
    | intros _].
  apply preserves_bind; [apply preserves_ofSum | intros m].
  apply preserves_bind; [apply quiet_gatherBeef | intros bi].
  apply preserves_bind; [apply quiet_setIsLoading | intros _].
  apply preserves_bind; [apply preserves_orThrow | intros created].
  apply preserves_bind; [apply preserves_orThrow | intros signable].
  apply preserves_bind; [apply preserves_orThrow | intros t].
  apply preserves_ret.
Qed.

Lemma framed_bind {A B} (c : M A) (k : A -> M B) :
  preserves quiet c -> (forall a, framed (k a)) -> framed (bind c k).
Proof.
  intros Hc Hk st. unfold bind. specialize (Hc st).
  destruct (c st) as [st1 [e|a]]; cbn [fst snd] in *; [exact Hc|].
  rewrite Hk. now rewrite Hc.
Qed.

Lemma framed_signAndSubmit p : framed (signAndSubmit p).
Proof.
  unfold signAndSubmit.
  apply framed_bind; [apply quiet_setIsLoading | intros _].
  apply framed_bind; [apply quiet_unlockInputs | intros keys].
  apply framed_bind; [apply preserves_orThrow | intros spends].
  apply framed_bind; [apply quiet_emit | intros _].
  apply framed_bind; [apply quiet_setIsLoading | intros _].
  apply framed_bind; [apply quiet_emit | intros _].
  apply framed_bind; [apply preserves_orThrow | intros signed].
  apply framed_bind;
    [apply preserves_if; [apply preserves_throw | apply preserves_ret]
    | intros _].
  intros st. reflexivity.
Qed.

Lemma framed_sweepBody mnemonic pin results :
  framed (sweepBody mnemonic pin results).
Proof.
  unfold sweepBody.
  apply framed_bind; [apply quiet_obtainTransaction | intros p].
  apply framed_bind; [|intros _; apply framed_signAndSubmit].
  intros st. now rewrite feeCheck_run.
Qed.

End SweepFrame.

(** X16: what [createIngestTx] leaves behind.  After an early return
    the form state is untouched; the sweep returns early exactly when the
    wallet is not signed in (or the check throws) or the registry is
    empty.  After a caught exception the only field that may differ is
    the loading message, which is blank: registry and transaction hex
    are as before.  After a completed sweep the registry is empty, the
    loading message blank, and apart from the transaction hex nothing
    else has changed. *)
Theorem sweep_leaves_the_form_as_it_was
    `{sdk : Sdk} `{txsdk : @TxSdk sdk} `{wallet : @Wallet sdk txsdk}
    `{provider : Provider} (s : App.State) :
  app (fst (createIngestTx s)) =
    match snd (createIngestTx s) with
    | Returned => s
    | Caught _ => App.setIsLoading [] s
    | Completed =>
      App.setResults (fun _ => [])
        (App.setTxHex (App.txHex (app (fst (createIngestTx s))))
                      (App.setIsLoading [] s))
    end
  /\ (snd (createIngestTx s) = Returned <->
      isAuthenticated <> Some true \/ App.results s = []).
Proof.
  unfold createIngestTx.
  destruct isAuthenticated as [[|]|]; cbn [fst snd app];
    try (split; [reflexivity | split; [intros _; left; discriminate | auto]]).
  destruct (App.results s) as [|r rs] eqn:Hres; cbn [length Z.of_nat Z.eqb].
  - split; [reflexivity | split; auto].
  - change (Z.pos (Pos.of_succ_nat (length rs)) =? 0) with false. cbn iota.
    unfold tryCatchFinally.
    pose proof (framed_sweepBody (App.mnemonic s) (App.pin s) (r :: rs)
                  {| app := s; trace := [] |}) as Hf.
    unfold quiet in Hf. cbn [app] in Hf.
    destruct (sweepBody (App.mnemonic s) (App.pin s) (r :: rs)
                {| app := s; trace := [] |}) as [st1 [e|[]]];
      cbn [fst snd app] in *.
    + split; [exact Hf|]. split; [discriminate|].
      intros [H|H]; [now elim H | discriminate].
    + split.
      * rewrite Hf. reflexivity.
      * split; [discriminate|]. intros [H|H]; [now elim H | discriminate].
Qed.

(** ** More on the request queue *)

Section QueueAccounting.

Import Dispatcher Queue.

Lemma initial_accounted now : accounted (initial now).
Proof. split; reflexivity. Qed.

Lemma step_accounted l st st' :
  invariant st -> accounted st -> step l st = Some st' -> accounted st'.
Proof.
  intros [_ Hw] [Hidle Hacc] Hstep.
  destruct st as [q p last clk ws enq disp sett].
  unfold oneWorker in Hw. unfold accounted, inFlight in *.
  cbn [requestQueue isProcessing lastRequestTime clock workers enqueued
       dispatched settled] in *.
  destruct Hw as [[-> ->]|[(due & -> & -> & Hq & Hdue)|(it & -> & ->)]];
    cbn [flat_map app] in Hacc.
  - (* no worker *)
    rewrite (Hidle eq_refl) in *.
    destruct l as [u|dt|k|k ok]; cbn in Hstep.
    + unfold processQueue, loopHead, afterWait, suspend in Hstep.
      cbn in Hstep.
      destruct (clk - last <? MIN_INTERVAL); injection Hstep as <-; cbn.
      * split; [discriminate | exact Hacc].
      * split; [discriminate | now rewrite Hacc].
    + injection Hstep as <-. cbn. auto.
    + destruct k; discriminate.
    + destruct k; discriminate.
  - (* a worker waiting for its timer *)
    destruct l as [u|dt|k|k ok]; cbn in Hstep.
    + injection Hstep as <-. cbn. split; [discriminate | exact Hacc].
    + injection Hstep as <-. cbn. split; [discriminate | exact Hacc].
    + destruct k as [|[|k]]; try discriminate. cbn in Hstep.
      destruct (due <=? clk); [|discriminate].
      unfold afterWait, suspend, withWorkers in Hstep. cbn in Hstep.
      destruct q as [|item rest]; [congruence|].
      injection Hstep as <-. cbn. split; [discriminate | now rewrite Hacc].
    + destruct k as [|[|k]]; discriminate.
  - (* a worker waiting for its fetch *)
    destruct l as [u|dt|k|k ok]; cbn in Hstep.
    + injection Hstep as <-. cbn. split; [discriminate | exact Hacc].
    + injection Hstep as <-. cbn. split; [discriminate | exact Hacc].
    + destruct k as [|[|k]]; discriminate.
    + destruct k as [|[|k]]; try discriminate. cbn in Hstep.
      unfold loopHead, afterWait, suspend, withWorkers in Hstep.
      cbn in Hstep. destruct q as [|item rest]; cbn in Hstep.
      * injection Hstep as <-. cbn. split; [reflexivity | exact Hacc].
      * destruct (clk - last <? MIN_INTERVAL); injection Hstep as <-; cbn.
        -- split; [discriminate | exact Hacc].
        -- split; [discriminate | now rewrite Hacc].
Qed.

Lemma run_accounted ls : forall st st',
  invariant st -> accounted st -> run ls st = Some st' ->
  invariant st' /\ accounted st'.
Proof.
  induction ls as [|l ls IH]; intros st st' Hinv Hacc Hrun; cbn [run] in Hrun.
  - injection Hrun as <-. now split.
  - destruct (step l st) as [st1|] eqn:Hstep; [|discriminate].
    apply (IH st1); [| |exact Hrun].
    + now apply (step_invariant l st).
    + now apply (step_accounted l st).
Qed.

Lemma run_app ls1 : forall ls2 st st1 st2,
  run ls1 st = Some st1 -> run ls2 st1 = Some st2 ->
  run (ls1 ++ ls2) st = Some st2.
Proof.
  induction ls1 as [|l ls1 IH]; intros ls2 st st1 st2 H1 H2.
  - cbn [run] in H1. now injection H1 as <-.
  - cbn [run] in H1. change ((l :: ls1) ++ ls2) with (l :: (ls1 ++ ls2)).
    cbn [run]. destruct (step l st) as [st'|]; [|discriminate].
    now apply (IH ls2 st' st1).
Qed.

Lemma spaced_suffix pre : forall log, spaced (pre ++ log) -> spaced log.
Proof.
  induction pre as [|[r t] pre IH]; intros log Hsp; [exact Hsp|].
  apply IH. change (spaced ((r, t) :: (pre ++ log))) in Hsp.
  now destruct Hsp as [_ Hsp].
Qed.

End QueueAccounting.

Section QueueProgress.

Import Dispatcher Queue.

(** With a worker in progress, the runtime alone (no new request) can
    take the queue one step closer to empty. *)
Lemma progress st :
  invariant st -> accounted st -> workers st <> [] ->
  exists ls st1,
    forallb (fun l => negb (isEnqueue l)) ls = true
    /\ run ls st = Some st1
    /\ (remaining st1 < remaining st)%nat
    /\ enqueued st1 = enqueued st.
Proof.
  intros [_ Hw] _ Hbusy.
  destruct st as [q p last clk ws enq disp sett].
  unfold oneWorker in Hw. unfold remaining, inFlight.
  cbn [requestQueue isProcessing lastRequestTime clock workers enqueued
       dispatched settled] in *.
  destruct Hw as [[-> ->]|[(due & -> & -> & Hq & Hdue)|(it & -> & ->)]].
  - congruence.
  - destruct q as [|item rest]; [congruence|].
    assert (Hle : (due <=? clk + Z.of_N (Z.to_N (due - clk))) = true)
      by (apply Z.leb_le; lia).
    exists [Tick (Z.to_N (due - clk)); TimerFires 0]. eexists.
    split; [reflexivity|]. split.
    + cbn. rewrite Hle. cbn. reflexivity.
    + cbn. split; [lia | reflexivity].
  - destruct q as [|item rest].
    + exists [FetchSettles 0 true]. eexists.
      split; [reflexivity|]. split; [cbn; reflexivity|].
      cbn. split; [lia | reflexivity].
    + destruct (clk - last <? MIN_INTERVAL) eqn:E.
      * exists [FetchSettles 0 true]. eexists.
        split; [reflexivity|]. split.
        -- cbn. unfold loopHead. cbn. rewrite E. cbn. reflexivity.
        -- cbn. split; [lia | reflexivity].
      * exists [FetchSettles 0 true]. eexists.
        split; [reflexivity|]. split.
        -- cbn. unfold loopHead. cbn. rewrite E. cbn. reflexivity.
        -- cbn. split; [lia | reflexivity].
Qed.

Lemma drain n : forall st,
  (remaining st <= n)%nat -> invariant st -> accounted st ->
  exists ls st',
    forallb (fun l => negb (isEnqueue l)) ls = true
    /\ run ls st = Some st'
    /\ workers st' = [] /\ enqueued st' = enqueued st.
Proof.
  induction n as [|n IH]; intros st Hn Hinv Hacc.
  - destruct (workers st) as [|w ws] eqn:Hws.
    + exists [], st. repeat split; auto.
    + destruct (progress st Hinv Hacc) as (ls & st1 & _ & _ & Hlt & _);
        [congruence | lia].
  - destruct (workers st) as [|w ws] eqn:Hws.
    + exists [], st. repeat split; auto.
    + destruct (progress st Hinv Hacc) as (ls1 & st1 & Hno1 & Hrun1 & Hlt & He1);
        [congruence|].
      destruct (run_accounted ls1 st st1 Hinv Hacc Hrun1) as [Hinv1 Hacc1].
      destruct (IH st1 ltac:(lia) Hinv1 Hacc1)
        as (ls2 & st2 & Hno2 & Hrun2 & Hw2 & He2).
      exists (ls1 ++ ls2), st2. repeat split; auto.
      * rewrite forallb_app. now rewrite Hno1, Hno2.
      * now apply (run_app ls1 ls2 st st1 st2).
      * congruence.
Qed.

End QueueProgress.

(** X17: between two segments, [isProcessing] is set exactly when a call
    of [processQueue] is in progress, and when none is the queue is
    empty: a request is never left in the queue with nobody to issue
    it. *)
Theorem queue_never_waits_without_a_worker (now : Z)
    (ls : list Dispatcher.Label) (st : Dispatcher.State) :
  Dispatcher.run ls (Dispatcher.initial now) = Some st ->
  (Dispatcher.isProcessing st = true <-> Dispatcher.workers st <> [])
  /\ (Dispatcher.workers st = [] -> Dispatcher.requestQueue st = []).
Proof.
  intros Hrun.
  destruct (run_accounted ls _ _ (initial_invariant now)
              (initial_accounted now) Hrun) as [[_ Hw] [Hidle _]].
  split; [|exact Hidle].
  destruct Hw as [[Hw Hp]|[(due & Hw & Hp & _)|(it & Hw & Hp)]];
    rewrite Hw, Hp; split; congruence.
Qed.

Lemma queue_never_waits_without_a_worker_witness :
  (Dispatcher.isProcessing Dispatcher.sampleFinal = true <->
   Dispatcher.workers Dispatcher.sampleFinal <> [])
  /\ (Dispatcher.workers Dispatcher.sampleFinal = [] ->
      Dispatcher.requestQueue Dispatcher.sampleFinal = []).
Proof.
  exact (queue_never_waits_without_a_worker 1000 Dispatcher.sampleRun
           Dispatcher.sampleFinal eq_refl).
Defined.

(** X18: every request ever passed to [queuedFetch] is in exactly one
    place: settled, in flight or still queued; read in that order these
    are the requests in the order they were enqueued, so promises are
    settled in request order; and at most one request is in flight. *)
Theorem every_request_is_in_one_place (now : Z)
    (ls : list Dispatcher.Label) (st : Dispatcher.State) :
  Dispatcher.run ls (Dispatcher.initial now) = Some st ->
  Dispatcher.enqueued st =
    rev (map fst (Dispatcher.settled st)) ++ rev (Queue.inFlight st)
    ++ Dispatcher.requestQueue st
  /\ (length (Queue.inFlight st) <= 1)%nat.
Proof.
  intros Hrun.
  destruct (run_accounted ls _ _ (initial_invariant now)
              (initial_accounted now) Hrun)
    as [[(Hfifo & _) Hw] [_ Hacc]].
  split.
  - rewrite Hfifo, Hacc, rev_app_distr. now rewrite <- app_assoc.
  - unfold Queue.inFlight.
    destruct Hw as [[-> _]|[(due & -> & _)|(it & -> & _)]]; cbn; lia.
Qed.

Lemma every_request_is_in_one_place_witness :
  Dispatcher.enqueued Dispatcher.sampleFinal =
    rev (map fst (Dispatcher.settled Dispatcher.sampleFinal))
    ++ rev (Queue.inFlight Dispatcher.sampleFinal)
    ++ Dispatcher.requestQueue Dispatcher.sampleFinal
  /\ (length (Queue.inFlight Dispatcher.sampleFinal) <= 1)%nat.
Proof.
  exact (every_request_is_in_one_place 1000 Dispatcher.sampleRun
           Dispatcher.sampleFinal eq_refl).
Defined.

(** X19: the queue cannot get stuck.  From any state the program can
    reach, the runtime alone, without any new request, can bring it to
    rest: no worker, [isProcessing] reset, nothing queued, and every
    request ever enqueued settled, in the order of enqueueing. *)
Theorem queue_can_always_be_drained (now : Z)
    (ls : list Dispatcher.Label) (st : Dispatcher.State) :
  Dispatcher.run ls (Dispatcher.initial now) = Some st ->
  exists ls' st',
    forallb (fun l => negb (Queue.isEnqueue l)) ls' = true
    /\ Dispatcher.run ls' st = Some st'
    /\ Dispatcher.workers st' = []
    /\ Dispatcher.isProcessing st' = false
    /\ Dispatcher.requestQueue st' = []
    /\ rev (map fst (Dispatcher.settled st')) = Dispatcher.enqueued st.
Proof.
  intros Hrun.
  destruct (run_accounted ls _ _ (initial_invariant now)
              (initial_accounted now) Hrun) as [Hinv Hacc].
  destruct (drain (Queue.remaining st) st (le_n _) Hinv Hacc)
    as (ls' & st' & Hno & Hrun' & Hw & He).
  destruct (run_accounted ls' _ _ Hinv Hacc Hrun')
    as [[(Hfifo & _) Hone] [Hidle Hacc']].
  exists ls', st'. repeat split; auto.
  - destruct Hone as [[_ Hp]|[(due & Hw' & _)|(it & Hw' & _)]];
      [exact Hp | congruence | congruence].
  - rewrite <- He, Hfifo, (Hidle Hw), app_nil_r, Hacc'.
    unfold Queue.inFlight. now rewrite Hw.
Qed.

Lemma queue_can_always_be_drained_witness :
  exists ls' st',
    forallb (fun l => negb (Queue.isEnqueue l)) ls' = true
    /\ Dispatcher.run ls' Dispatcher.sampleFinal = Some st'
    /\ Dispatcher.workers st' = []
    /\ Dispatcher.isProcessing st' = false
    /\ Dispatcher.requestQueue st' = []
    /\ rev (map fst (Dispatcher.settled st'))
       = Dispatcher.enqueued Dispatcher.sampleFinal.
Proof.
  exact (queue_can_always_be_drained 1000 Dispatcher.sampleRun
           Dispatcher.sampleFinal eq_refl).
Defined.

(** X20: any four requests issued one after the other span more than a
    second from the first to the fourth: no window of one second ever
    sees more than three requests leave. *)
Theorem four_issues_span_more_than_a_second (now : Z)
    (ls : list Dispatcher.Label) (st : Dispatcher.State)
    (newer older : list (Dispatcher.Request * Z))
    (r1 r2 r3 r4 : Dispatcher.Request) (t1 t2 t3 t4 : Z) :
  Dispatcher.run ls (Dispatcher.initial now) = Some st ->
  Dispatcher.dispatched st =
    newer ++ (r4, t4) :: (r3, t3) :: (r2, t2) :: (r1, t1) :: older ->
  1000 < t4 - t1.
Proof.
  intros Hrun Hlog.
  destruct (run_invariant ls _ _ (initial_invariant now) Hrun)
    as [(_ & _ & Hsp & _) _].
  rewrite Hlog in Hsp. apply spaced_suffix in Hsp.
  cbn [Dispatcher.spaced] in Hsp. unfold Dispatcher.MIN_INTERVAL in Hsp. lia.
Qed.

Lemma four_issues_span_more_than_a_second_witness : 1000 < 2002 - 1000.
Proof.
  apply (four_issues_span_more_than_a_second 1000 Queue.burst
           (match Dispatcher.run Queue.burst (Dispatcher.initial 1000) with
            | Some st => st
            | None => Dispatcher.initial 1000
            end)
           [] []
           {| Dispatcher.url := JsString.lit "a"; Dispatcher.ticket := 0 |}
           {| Dispatcher.url := JsString.lit "b"; Dispatcher.ticket := 1 |}
           {| Dispatcher.url := JsString.lit "c"; Dispatcher.ticket := 2 |}
           {| Dispatcher.url := JsString.lit "d"; Dispatcher.ticket := 3 |}
           1000 1334 1668 2002).
  - vm_compute. reflexivity.
  - vm_compute. reflexivity.
Defined.

(** ** Keys and inputs, end to end *)

Section KeyAlignment.

Context `{sdk : Sdk} `{txsdk : @TxSdk sdk} `{wallet : @Wallet sdk txsdk}
        `{provider : Provider}.

Lemma buildKeyMap_origin seed rs m txid l u :
  buildKeyMap seed rs = inr m ->
  JsObject.get txid m = Some l -> In u l ->
  exists r key utxo,
    In r rs /\ entryKey seed r = Some key
    /\ In utxo (result (utxos r)) /\ tx_hash utxo = txid
    /\ u = keyedUtxoOf key utxo.
Proof.
  unfold buildKeyMap. intros Hmap Hget Hin.
  assert (Hne : noEmptyBucket (@nil (jsstring * list KeyedUtxo)))
    by (intros t; discriminate).
  pose proof (buildKeyMapFrom_spec seed rs [] Hne) as Hspec.
  rewrite Hmap in Hspec. destruct Hspec as (_ & _ & Hb).
  specialize (Hb txid). unfold bucket at 1 2 in Hb. rewrite Hget in Hb.
  cbn in Hb. subst l. now apply expectedBucket_origin.
Qed.

Lemma obtainTransaction_keymap mnemonic pin results st st1 p :
  obtainTransaction mnemonic pin results st = (st1, inr p) ->
  exists seed,
    toSeed mnemonic pin = Some seed
    /\ buildKeyMap seed results = inr (utxosByTxid p).
Proof.
  unfold obtainTransaction, bind, modify, orThrow, ofSum, ret, throw.
  destruct (toSeed mnemonic pin) as [seed|]; [|discriminate].
  destruct (fromSeed seed); [|discriminate].
  destruct (buildKeyMap seed results) as [e|m] eqn:Hm; [discriminate|].
  destruct (gatherBeef _ _ _ _) as [st2 [e|bi]]; [discriminate|].
  destruct (createAction (fst bi) (snd bi)) as [[signable|]|];
    try discriminate.
  destruct (fromAtomicBEEF (tx signable)) as [t|]; [|discriminate].
  intros [= _ <-]. exists seed. cbn [utxosByTxid]. now split.
Qed.

Lemma sweepBody_unlocks mnemonic pin results st input key :
  In (Unlock input key)
     (trace (fst (sweepBody mnemonic pin results st))) ->
  In (Unlock input key) (trace st)
  \/ exists seed m,
       toSeed mnemonic pin = Some seed
       /\ buildKeyMap seed results = inr m
       /\ resolveKey m input = inr key.
Proof.
  unfold sweepBody, bind.
  pose proof (obtainTransaction_keeps_trace mnemonic pin results st) as Ht.
  destruct (obtainTransaction mnemonic pin results st) as [st1 [e|p]] eqn:Hob;
    cbn [fst] in *; [rewrite Ht; now left|].
  rewrite feeCheck_run.
  destruct (getFee (candidate p)) as [sats|];
    [|cbn [fst]; rewrite Ht; now left].
  destruct (feeTooHigh sats (binaryLength (candidate p)));
    [cbn [fst]; rewrite Ht; now left|].
  destruct (obtainTransaction_keymap _ _ _ _ _ _ Hob) as (seed & Hseed & Hmap).
  unfold signAndSubmit, bind, modify, emit, orThrow, throw, ret.
  rewrite unlockInputs_run. cbn [app trace].
  intros Hin.
  assert (Hcases : In (Unlock input key) (trace st1)
                   \/ In (Unlock input key)
                        (map (fun q => Unlock (fst q) (snd q))
                             (fst (resolveAll (utxosByTxid p)
                                              (inputs (candidate p)))))).
  { destruct (snd (resolveAll (utxosByTxid p) (inputs (candidate p))));
      cbn [fst trace] in Hin; [now apply in_app_or in Hin|].
    destruct (sign (candidate p) _) as [spends|]; cbn [fst trace] in Hin;
      [|now apply in_app_or in Hin].
    destruct (signAction _ spends) as [signed|]; cbn [fst trace] in Hin.
    - destruct (falsy signed); cbn [fst trace app] in Hin;
        repeat (apply in_app_or in Hin; destruct Hin as [Hin|Hin]);
        auto; destruct Hin as [Hin|[]]; discriminate.
    - repeat (apply in_app_or in Hin; destruct Hin as [Hin|Hin]);
        auto; destruct Hin as [Hin|[]]; discriminate. }
  destruct Hcases as [Hin'|Hin']; [rewrite Ht in Hin'; now left|].
  right. exists seed, (utxosByTxid p). repeat split; auto.
  apply in_map_iff in Hin'. destruct Hin' as ([i k] & [= -> ->] & Hq).
  destruct (resolveAll_prefix (utxosByTxid p) (inputs (candidate p)))
    as (_ & Hall & _).
  rewrite Forall_forall in Hall. exact (Hall _ Hq).
Qed.

End KeyAlignment.

(** X21: keys and inputs stay aligned through the whole sweep.  If the
    key re-derived for each registry entry owns the entry's address (as
    it does for entries recorded by scans with the same mnemonic and
    PIN), then whenever [createIngestTx] attaches a key to an input of
    the wallet's transaction, some registry entry lists an unspent
    output with that input's source transaction id and output index, and
    the key owns that entry's address. *)
Theorem sweep_attaches_only_the_key_of_the_funded_address
    `{sdk : Sdk} `{txsdk : @TxSdk sdk} `{wallet : @Wallet sdk txsdk}
    `{provider : Provider}
    (s : App.State) (seed : Seed) (input : TransactionInput)
    (key : PrivateKey) :
  toSeed (App.mnemonic s) (App.pin s) = Some seed ->
  forallb (keyMatchesAddress seed) (App.results s) = true ->
  In (Unlock input key) (trace (fst (createIngestTx s))) ->
  exists r utxo,
    In r (App.results s) /\ In utxo (result (utxos r))
    /\ sourceTransaction input = Some (tx_hash utxo)
    /\ sourceOutputIndex input = tx_pos utxo
    /\ toAddress key = address r.
Proof.
  intros Hseed Hal Hin.
  assert (Hbody : In (Unlock input key)
            (trace (fst (sweepBody (App.mnemonic s) (App.pin s)
                           (App.results s) {| app := s; trace := [] |})))).
  { revert Hin. unfold createIngestTx.
    destruct isAuthenticated as [[|]|]; cbn [fst trace];
      try (intros [Hin|[]]; discriminate).
    destruct (Z.of_nat (length (App.results s)) =? 0); cbn [fst trace];
      [intros [Hin|[]]; discriminate|].
    unfold tryCatchFinally.
    destruct (sweepBody _ _ _ _) as [st1 [e|[]]]; cbn [fst trace]; auto.
    intros Hin. apply in_app_or in Hin.
    destruct Hin as [Hin|[Hin|[]]]; [exact Hin | discriminate]. }
  apply sweepBody_unlocks in Hbody. cbn [trace] in Hbody.
  destruct Hbody as [[]|(seed' & m & Hseed' & Hmap & Hkey)].
  rewrite Hseed in Hseed'. injection Hseed' as <-.
  destruct (resolveKey_two_factor _ _ _ Hkey)
    as (txid & l & u & Hsrc & Hget & _ & Hu & Hv & Hk).
  destruct (buildKeyMap_origin _ _ _ _ _ _ Hmap Hget Hu)
    as (r & key' & utxo & Hr & Hek & Hutxo & Htx & ->).
  cbn [keyedUtxoOf vout privKey] in *. subst key'.
  exists r, utxo. repeat split; auto; [congruence|].
  rewrite forallb_forall in Hal. specialize (Hal r Hr).
  unfold keyMatchesAddress in Hal. rewrite Hek in Hal.
  now apply JsString_eqb_eq.
Qed.

Lemma sweep_attaches_only_the_key_of_the_funded_address_witness :
  exists r utxo,
    In r (App.results (Sample.sessionWith Sample.funded))
    /\ In utxo (result (utxos r))
    /\ sourceTransaction (Sample.input "aa" 0 500) = Some (tx_hash utxo)
    /\ sourceOutputIndex (Sample.input "aa" 0 500) = tx_pos utxo
    /\ @toAddress Sample.sdk (JsString.lit "abc:m/0") = address r.
Proof.
  apply (@sweep_attaches_only_the_key_of_the_funded_address Sample.sdk
           (Sample.txSdk Sample.txAtLimit) (Sample.wallet Sample.txAtLimit)
           (Sample.provider []) (Sample.sessionWith Sample.funded)
           Sample.seed (Sample.input "aa" 0 500) (JsString.lit "abc:m/0")).
  - reflexivity.
  - vm_compute. reflexivity.
  - vm_compute. left. reflexivity.
Defined.
